(** * MailMind content script: summary cache, single-flight map and queue

    A shallow embedding of the caching and queueing layer of the
    [GmailContentScript] class (content script of the MailMind extension):
    the key derivation [computeSummaryId], the backend client
    [callGeminiAPI], the cache accessors, and the asynchronous wrapper
    [generateEmailSummaryWithCacheQueue] with its serialized queue.

    JavaScript strings are sequences of UTF-16 code units; they are
    modelled as [list N].  The in-memory [Map]s are [gmap]s. *)

From Stdlib Require Import NArith ZArith QArith Ascii String List Lia.
From stdpp Require Import base option list gmap.

Local Open Scope N_scope.

(** ** JavaScript strings *)

Module JS.

(** A string value: its UTF-16 code units, in order. *)
Definition jsstring := list N.

(** A literal written in the source with ASCII characters only. *)
Definition lit (s : string) : jsstring :=
  map N_of_ascii (list_ascii_of_string s).

(** An argument that may be [undefined]: [None]. *)
Definition opt := option jsstring.

(** [x || y] where [x] is a string or [undefined] and [y] a string:
    the empty string and [undefined] are falsy. *)
Definition or_else (x : opt) (y : jsstring) : jsstring :=
  match x with
  | Some (c :: s) => c :: s
  | _ => y
  end.

(** Truthiness of a string-or-undefined value. *)
Definition truthy (x : opt) : bool :=
  match x with
  | Some (_ :: _) => true
  | _ => false
  end.

(** [s.substring(0, n)]: the first [n] code units. *)
Definition substring0 (n : nat) (s : jsstring) : jsstring := take n s.

(** Interpolation of a possibly-undefined value in a template literal. *)
Definition interp (x : opt) : jsstring :=
  match x with
  | Some s => s
  | None => lit "undefined"
  end.

(** White space and line terminators, as removed by [trim]. *)
Definition is_space (c : N) : bool :=
  (9 <=? c) && (c <=? 13)
  || (c =? 32) || (c =? 160) || (c =? 5760)
  || (8192 <=? c) && (c <=? 8202)
  || (c =? 8232) || (c =? 8233) || (c =? 8239) || (c =? 8287)
  || (c =? 12288) || (c =? 65279).

Fixpoint trim_start (s : jsstring) : jsstring :=
  match s with
  | c :: r => if is_space c then trim_start r else s
  | [] => []
  end.

Definition trim (s : jsstring) : jsstring :=
  rev (trim_start (rev (trim_start s))).

(** [n.toString(16)]: lower-case hexadecimal digits, no leading zero. *)
Definition hex_digit (d : N) : N :=
  if d <? 10 then 48 + d else 87 + d.

Fixpoint hex_digits (fuel : nat) (n : N) (acc : jsstring) : jsstring :=
  match fuel with
  | O => acc
  | S f =>
      let acc' := hex_digit (n mod 16) :: acc in
      if n / 16 =? 0 then acc' else hex_digits f (n / 16) acc'
  end.

Definition toString16 (n : N) : jsstring :=
  hex_digits (S (N.to_nat (N.log2 n))) n [].

(** [s.padStart(n, '0')]. *)
Definition padStart0 (n : nat) (s : jsstring) : jsstring :=
  replicate (n - length s) 48 ++ s.

(** [new TextEncoder().encode(s)]: UTF-8, a lone surrogate being
    replaced by U+FFFD. *)
Definition utf8_of_scalar (u : N) : list N :=
  if u <? 128 then [u]
  else if u <? 2048 then
    [N.lor 192 (N.shiftr u 6); N.lor 128 (N.land u 63)]
  else if u <? 65536 then
    [N.lor 224 (N.shiftr u 12);
     N.lor 128 (N.land (N.shiftr u 6) 63);
     N.lor 128 (N.land u 63)]
  else
    [N.lor 240 (N.shiftr u 18);
     N.lor 128 (N.land (N.shiftr u 12) 63);
     N.lor 128 (N.land (N.shiftr u 6) 63);
     N.lor 128 (N.land u 63)].

Definition is_high (c : N) : bool := (55296 <=? c) && (c <=? 56319).
Definition is_low (c : N) : bool := (56320 <=? c) && (c <=? 57343).

Fixpoint encode (s : jsstring) : list N :=
  match s with
  | [] => []
  | c :: r =>
      if is_high c then
        match r with
        | d :: r' =>
            if is_low d
            then utf8_of_scalar (65536 + N.shiftl (c - 55296) 10 + (d - 56320))
                   ++ encode r'
            else utf8_of_scalar 65533 ++ encode r
        | [] => utf8_of_scalar 65533
        end
      else if is_low c then utf8_of_scalar 65533 ++ encode r
      else utf8_of_scalar c ++ encode r
  end.

End JS.

Import JS.

(** ** The platform digest: SHA-256 (FIPS 180-4) over a byte sequence

    [crypto.subtle.digest('SHA-256', data)] is supplied by the browser; it
    is given here by the standard's definition so that keys can be
    evaluated. *)

Module SHA256.

Definition mask32 : N := 4294967295.
Definition wrap (x : N) : N := N.land x mask32.
Definition plus (x y : N) : N := wrap (x + y).
Definition rotr (n x : N) : N :=
  N.lor (N.shiftr x n) (wrap (N.shiftl x (32 - n))).
Definition xor3 (a b c : N) : N := N.lxor (N.lxor a b) c.

Definition ch (x y z : N) : N :=
  N.lxor (N.land x y) (N.land (N.lxor x mask32) z).
Definition maj (x y z : N) : N :=
  xor3 (N.land x y) (N.land x z) (N.land y z).
Definition bsig0 (x : N) : N := xor3 (rotr 2 x) (rotr 13 x) (rotr 22 x).
Definition bsig1 (x : N) : N := xor3 (rotr 6 x) (rotr 11 x) (rotr 25 x).
Definition ssig0 (x : N) : N := xor3 (rotr 7 x) (rotr 18 x) (N.shiftr x 3).
Definition ssig1 (x : N) : N := xor3 (rotr 17 x) (rotr 19 x) (N.shiftr x 10).

Definition round_constants : list N :=
  [ 1116352408; 1899447441; 3049323471; 3921009573;
    961987163; 1508970993; 2453635748; 2870763221;
    3624381080; 310598401; 607225278; 1426881987;
    1925078388; 2162078206; 2614888103; 3248222580;
    3835390401; 4022224774; 264347078; 604807628;
    770255983; 1249150122; 1555081692; 1996064986;
    2554220882; 2821834349; 2952996808; 3210313671;
    3336571891; 3584528711; 113926993; 338241895;
    666307205; 773529912; 1294757372; 1396182291;
    1695183700; 1986661051; 2177026350; 2456956037;
    2730485921; 2820302411; 3259730800; 3345764771;
    3516065817; 3600352804; 4094571909; 275423344;
    430227734; 506948616; 659060556; 883997877;
    958139571; 1322822218; 1537002063; 1747873779;
    1955562222; 2024104815; 2227730452; 2361852424;
    2428436474; 2756734187; 3204031479; 3329325298 ].

(** The eight chaining words. *)
Record chain := Chain {
  ha : N; hb : N; hc : N; hd : N; he : N; hf : N; hg : N; hh : N }.

Definition initial : chain :=
  Chain 1779033703 3144134277 1013904242 2773480762
        1359893119 2600822924 528734635 1541459225.

(** Padding: a one bit, zero bits up to 56 modulo 64 bytes, then the
    bit length on eight bytes, big-endian. *)
Definition be_bytes (count : nat) (x : N) : list N :=
  map (fun i => N.land (N.shiftr x (8 * N.of_nat i)) 255) (rev (seq 0 count)).

Definition pad (msg : list N) : list N :=
  let len := length msg in
  let zeros := ((64 - (len + 9) mod 64) mod 64)%nat in
  msg ++ 128 :: replicate zeros 0 ++ be_bytes 8 (8 * N.of_nat len).

Definition be_word (b3 b2 b1 b0 : N) : N :=
  N.lor (N.shiftl b3 24) (N.lor (N.shiftl b2 16) (N.lor (N.shiftl b1 8) b0)).

Fixpoint words (bytes : list N) : list N :=
  match bytes with
  | b3 :: b2 :: b1 :: b0 :: r => be_word b3 b2 b1 b0 :: words r
  | _ => []
  end.

(** Message schedule: sixteen block words extended to sixty-four.  The
    schedule is kept most-recent-first while it is built. *)
Definition next_word (rw : list N) : N :=
  plus (plus (ssig1 (nth 1 rw 0)) (nth 6 rw 0))
       (plus (ssig0 (nth 14 rw 0)) (nth 15 rw 0)).

Fixpoint extend (n : nat) (rw : list N) : list N :=
  match n with
  | O => rw
  | S n' => extend n' (next_word rw :: rw)
  end.

Definition schedule (block : list N) : list N :=
  rev (extend 48 (rev block)).

Definition round (c : chain) (kw : N * N) : chain :=
  let t1 := plus (plus (plus (hh c) (bsig1 (he c)))
                       (plus (ch (he c) (hf c) (hg c)) (fst kw))) (snd kw) in
  let t2 := plus (bsig0 (ha c)) (maj (ha c) (hb c) (hc c)) in
  Chain (plus t1 t2) (ha c) (hb c) (hc c) (plus (hd c) t1) (he c) (hf c) (hg c).

Definition compress (c : chain) (block : list N) : chain :=
  let r := fold_left round (zip round_constants (schedule block)) c in
  Chain (plus (ha c) (ha r)) (plus (hb c) (hb r))
        (plus (hc c) (hc r)) (plus (hd c) (hd r))
        (plus (he c) (he r)) (plus (hf c) (hf r))
        (plus (hg c) (hg r)) (plus (hh c) (hh r)).

Fixpoint blocks (n : nat) (ws : list N) (c : chain) : chain :=
  match n with
  | O => c
  | S n' => blocks n' (drop 16 ws) (compress c (take 16 ws))
  end.

Definition chain_bytes (c : chain) : list N :=
  be_bytes 4 (ha c) ++ be_bytes 4 (hb c) ++ be_bytes 4 (hc c)
    ++ be_bytes 4 (hd c) ++ be_bytes 4 (he c) ++ be_bytes 4 (hf c)
    ++ be_bytes 4 (hg c) ++ be_bytes 4 (hh c).

(** The 32-byte digest of a byte sequence. *)
Definition digest (msg : list N) : list N :=
  let ws := words (pad msg) in
  chain_bytes (blocks (length ws / 16) ws initial).

End SHA256.

(** [computeSHA256Hex(input)]: encode, digest, and print every byte of
    the digest on two hexadecimal digits. *)
Definition computeSHA256Hex (input : opt) : jsstring :=
  let data := encode (or_else input []) in
  let bytes := SHA256.digest data in
  fold_left (fun hex b => hex ++ padStart0 2 (toString16 b)) bytes [].

(** ** The page: what the key derivation reads from the document *)

(** The selectors the key derivation passes to [document.querySelector]. *)
Inductive selector :=
| SelMainMessageId   (* [role=main] [data-message-id] *)
| SelMessageId       (* [data-message-id] *)
| SelMainTime        (* [role=main] time *)
| SelTime            (* time *)
| SelG3Span          (* .g3 span *)
| SelGHTitle.        (* .gH [title] *)

Record Element := {
  getAttribute : string -> opt;   (* null when the attribute is absent *)
  textContent : jsstring }.

(** The document, as far as [querySelector] shows it: the first element
    matching each selector, or null. *)
Definition Document := selector -> option Element.

(** [a || b] on element-or-null values. *)
Definition first_of (a b : option Element) : option Element :=
  match a with
  | Some e => Some e
  | None => b
  end.

Definition getOpenMessageIdFromDOM (document : Document) : jsstring :=
  let el := first_of (document SelMainMessageId) (document SelMessageId) in
  let mid := el ≫= fun e => getAttribute e "data-message-id" in
  or_else mid [].

Definition extractOpenEmailTimeFromDOM (document : Document) : jsstring :=
  match first_of (document SelMainTime) (document SelTime) with
  | Some timeEl =>
      or_else (getAttribute timeEl "datetime")
        (trim (or_else (Some (textContent timeEl)) []))
  | None =>
      match first_of (document SelG3Span) (document SelGHTitle) with
      | Some alt =>
          or_else (getAttribute alt "title")
            (trim (or_else (Some (textContent alt)) []))
      | None => []
      end
  end.

(** ** Key derivation *)

Definition computeSummaryId (document : Document)
    (explicitId subject body time : opt) : jsstring :=
  match explicitId with
  | Some (c :: s) => c :: s
  | _ =>
      let mid := getOpenMessageIdFromDOM document in
      match mid with
      | _ :: _ => lit "mid:" ++ mid
      | [] =>
          let first50 := substring0 50 (or_else body []) in
          let t :=
            or_else time
              (or_else (Some (extractOpenEmailTimeFromDOM document)) []) in
          let composite :=
            or_else subject [] ++ lit "|" ++ t ++ lit "|" ++ first50 in
          lit "hash:" ++ computeSHA256Hex (Some composite)
      end
  end.

(** ** The backend client *)

Inductive error :=
| NetworkError                 (* [fetch] rejected *)
| ApiError (status : N)        (* Error(`API error: ${response.status}`) *)
| NoContentGenerated           (* Error('No content generated') *)
| SyntaxError                  (* [response.json()] rejected *)
| TypeError.                   (* property of null, or call of a non-function *)

(** How a promise settles. *)
Inductive outcome :=
| Fulfilled (v : jsstring)
| Rejected (e : error).

(** A parsed JSON value. *)
#[local] Unset Elimination Schemes.
Inductive json :=
| JNull
| JBool (b : bool)
| JNumber (q : Q)
| JString (s : jsstring)
| JArray (items : list json)
| JObject (fields : list (jsstring * json)).
#[local] Set Elimination Schemes.

(** Own property of a parsed object; when a name occurs twice the later
    occurrence is the one the parser keeps. *)
Fixpoint lookup_field (name : jsstring) (fields : list (jsstring * json))
  : option json :=
  match fields with
  | [] => None
  | (n, v) :: r =>
      match lookup_field name r with
      | Some w => Some w
      | None => if decide (n = name) then Some v else None
      end
  end.

(** [v.name] for a value [v] that is neither null nor undefined, and a
    [name] that is neither an index nor a built-in property; [None] is
    [undefined]. *)
Definition member (name : string) (v : json) : option json :=
  match v with
  | JObject fields => lookup_field (lit name) fields
  | _ => None
  end.

(** [v[0]] for a value [v] that is neither null nor undefined. *)
Definition first (v : json) : option json :=
  match v with
  | JObject fields => lookup_field (lit "0") fields
  | JArray (x :: _) => Some x
  | JString (c :: _) => Some (JString [c])
  | _ => None
  end.

(** Optional chaining [x?.p]: undefined when [x] is null or undefined. *)
Definition chain (x : option json) (p : json -> option json) : option json :=
  match x with
  | None | Some JNull => None
  | Some v => p v
  end.

(** [!x] on a value or undefined. *)
Definition falsy (x : option json) : bool :=
  match x with
  | None | Some JNull | Some (JBool false) | Some (JString []) => true
  | Some (JNumber q) => Qeq_bool q 0
  | _ => false
  end.

(** What the network gives back to one [fetch]: a rejection, or a response
    with its status and its body ([None] when the body is not JSON). *)
Inductive fetch_outcome :=
| FetchFailed
| Response (status : N) (body : option json).

(** [response.ok] *)
Definition ok (status : N) : bool := (200 <=? status) && (status <=? 299).

Record request := {
  req_key : opt;                 (* [this.apiKey], put in the URL *)
  req_text : jsstring;           (* contents[0].parts[0].text *)
  req_maxOutputTokens : N }.

(** A computation that may call [fetch] and wait for it. *)
Inductive io (A : Type) :=
| Return (a : A)
| Throw (e : error)
| Fetch (req : request) (k : fetch_outcome -> io A).
Arguments Return {A} a.
Arguments Throw {A} e.
Arguments Fetch {A} req k.

(** Running a computation against the network's successive answers: the
    result, if the answers suffice, and the requests sent, in order. *)
Fixpoint exec {A} (m : io A) (net : list fetch_outcome)
  : option (error + A) * list request :=
  match m with
  | Return a => (Some (inr a), [])
  | Throw e => (Some (inl e), [])
  | Fetch req k =>
      match net with
      | [] => (None, [req])
      | o :: net' =>
          let (r, sent) := exec (k o) net' in (r, req :: sent)
      end
  end.

(** [callGeminiAPI], from the point where [fetch] has settled. *)
Definition callGeminiAPI_settled (o : fetch_outcome) : outcome :=
  match o with
  | FetchFailed => Rejected NetworkError
  | Response status body =>
      if negb (ok status) then Rejected (ApiError status)
      else
        match body with
        | None => Rejected SyntaxError
        | Some JNull => Rejected TypeError
        | Some data =>
            let generatedText :=
              chain (chain (chain (chain (chain (member "candidates" data)
                first) (member "content")) (member "parts"))
                first) (member "text") in
            if falsy generatedText then Rejected NoContentGenerated
            else
              match generatedText with
              | Some (JString s) => Fulfilled (trim s)
              | _ => Rejected TypeError
              end
        end
  end.

Definition io_of (r : outcome) : io jsstring :=
  match r with
  | Fulfilled v => Return v
  | Rejected e => Throw e
  end.

Definition callGeminiAPI (apiKey : opt) (prompt : jsstring) (maxTokens : N)
  : io jsstring :=
  Fetch {| req_key := apiKey; req_text := prompt;
           req_maxOutputTokens := maxTokens |}
        (fun o => io_of (callGeminiAPI_settled o)).

(** The arguments of one summary request. *)
Record email := {
  emailContent : opt;
  emailSubject : opt;
  emailSender : opt;
  options_id : opt;
  options_time : opt }.

Definition newline : jsstring := [10].

Definition summary_prompt (m : email) : jsstring :=
  lit "Summarize this email in 2-3 clear sentences, focusing on key points and any action items:"
    ++ newline ++ newline
    ++ lit "From: " ++ interp (emailSender m) ++ newline
    ++ lit "Subject: " ++ interp (emailSubject m) ++ newline ++ newline
    ++ lit "Content: " ++ interp (emailContent m).

(** The unwrapped [generateEmailSummary]. *)
Definition generateEmailSummary (apiKey : opt) (m : email) : io jsstring :=
  callGeminiAPI apiKey (summary_prompt m) 150.

(** The request it sends. *)
Definition summary_request (apiKey : opt) (m : email) : request :=
  {| req_key := apiKey; req_text := summary_prompt m;
     req_maxOutputTokens := 150 |}.

(** Reading of "the response contains generated content": the text of the
    first part of the first candidate is a non-empty string. *)
Inductive step_name := Field (name : string) | First.

Definition get (v : json) (p : step_name) : option json :=
  match p with
  | Field name => member name v
  | First => first v
  end.

Fixpoint at_path (v : json) (path : list step_name) : option json :=
  match path with
  | [] => Some v
  | p :: rest =>
      match v with
      | JNull => None
      | _ => match get v p with
             | Some w => at_path w rest
             | None => None
             end
      end
  end.

Definition content_path : list step_name :=
  [Field "candidates"; First; Field "content"; Field "parts"; First;
   Field "text"].

Definition generated_content (body : json) : option jsstring :=
  match at_path body content_path with
  | Some (JString (c :: s)) => Some (c :: s)
  | _ => None
  end.

(** Reading of "the hex encoding of a digest": two lower-case hexadecimal
    digits per byte, high digit first. *)
Definition hex_encode (bytes : list N) : jsstring :=
  flat_map (fun b => [hex_digit (b / 16); hex_digit (b mod 16)]) bytes.

(** Reading of the key described for an item without external identifier:
    the digest of subject, timestamp and the first 50 characters of the
    body, a missing field counting as the empty string. *)
Definition hash_key_of_fields (subject body time : opt) : jsstring :=
  lit "hash:"
    ++ hex_encode
         (SHA256.digest
            (encode (or_else subject [] ++ lit "|" ++ or_else time []
                       ++ lit "|" ++ take 50 (or_else body [])))).

(** A text as the backend answers it. *)
Definition answer_with (text : jsstring) : fetch_outcome :=
  Response 200
    (Some (JObject [(lit "candidates",
       JArray [JObject [(lit "content",
         JObject [(lit "parts",
           JArray [JObject [(lit "text", JString text)]])])]])])).

(** One step of a property path under optional chaining. *)
Definition walk (x : option json) (p : step_name) : option json :=
  chain x (fun v => get v p).

(** ** The summary cache *)

(** The stored object under the slot ['mailmindSummaryCacheV1'], and the
    in-memory [Map], both from keys to summaries. *)
Abbreviation table := (gmap jsstring jsstring).

(** [loadSummaryCache]: [got] is what [chrome.storage.local.get] gave,
    [None] when it rejected, [Some None] when the slot is not there. *)
Definition loadSummaryCache (got : option (option table)) : table :=
  match got with
  | Some slot => default ∅ slot
  | None => ∅
  end.

(** [getCachedSummary]: [this.summaryCache.get(id) || null]. *)
Definition getCachedSummary (summaryCache : table) (id : jsstring) : opt :=
  match summaryCache !! id with
  | Some (c :: v) => Some (c :: v)
  | _ => None
  end.

(** ** The wrapper and its queue, as a transition system

    The script runs on one thread; an [async] method runs until it awaits
    and is resumed later.  A state holds the fields of the object and, for
    every call that is suspended, the point where it waits.  A transition
    is one uninterrupted run of the script, started by an event. *)

(** A call of [generateEmailSummaryWithCacheQueue] is named by a number;
    the promise made by [enqueueSummaryTask] is named after the call that
    made it. *)
Abbreviation caller := nat.

(** A queue entry [{ id, runFn, resolve, reject }]: [runFn] closes over
    [id] and the arguments of the call, [resolve] and [reject] settle the
    promise of [task_owner]. *)
Record task := {
  task_id : jsstring;
  task_owner : caller;
  task_email : email }.

(** Where the [runFn] of the task being processed is suspended. *)
Inductive run_point :=
| AwaitBackend (t : task)
    (* await this._originalGenerateEmailSummary(...) *)
| AwaitStorageGet (t : task) (summary : jsstring)
    (* setCachedSummary: await chrome.storage.local.get(...) *)
| AwaitStorageSet (t : task) (summary : jsstring) (raw : table).
    (* setCachedSummary: await chrome.storage.local.set(...) *)

(** Where a call of the wrapper is suspended, or how it has settled. *)
Inductive call_point :=
| AwaitId (m : email) (id : jsstring)       (* await this.computeSummaryId(...) *)
| AwaitInFlight (m : email) (p : caller)    (* await this.inFlightSummaries.get(id) *)
| AwaitTask (m : email) (id : jsstring)     (* await taskPromise *)
| AwaitFallback (m : email)                 (* catch: await the direct call *)
| Settled (r : outcome).

(** Who sent a backend request. *)
Inductive origin :=
| ByTask (t : task)
| ByFallback (c : caller).

(** What is recorded of a run, with the time it happened at. *)
Inductive mark :=
| Enqueued (t : task)
| Started (t : task)                    (* task.runFn() called *)
| Finished (t : task) (r : outcome)     (* task.resolve(res) / task.reject(e) *)
| CacheHit (c : caller) (v : jsstring)
| Joined (c : caller) (p : caller)
| Answered (c : caller) (r : outcome).

Record state := {
  apiKey : opt;
  document : Document;
  storage : option table;           (* the slot in chrome.storage.local *)
  summaryCache : table;
  inFlightSummaries : gmap jsstring caller;
  summaryQueue : list task;
  isProcessingSummaryQueue : bool;
  current : option run_point;
  promises : gmap caller outcome;   (* the task promises that have settled *)
  calls : gmap caller call_point;
  sent : list (origin * request);   (* backend requests, oldest first *)
  now : N;                          (* milliseconds *)
  history : list (N * mark) }.      (* oldest first *)

Definition set_document d s :=
  {| apiKey := apiKey s; document := d; storage := storage s;
     summaryCache := summaryCache s; inFlightSummaries := inFlightSummaries s;
     summaryQueue := summaryQueue s;
     isProcessingSummaryQueue := isProcessingSummaryQueue s;
     current := current s; promises := promises s; calls := calls s;
     sent := sent s; now := now s; history := history s |}.
Definition set_storage st s :=
  {| apiKey := apiKey s; document := document s; storage := st;
     summaryCache := summaryCache s; inFlightSummaries := inFlightSummaries s;
     summaryQueue := summaryQueue s;
     isProcessingSummaryQueue := isProcessingSummaryQueue s;
     current := current s; promises := promises s; calls := calls s;
     sent := sent s; now := now s; history := history s |}.
Definition set_summaryCache m s :=
  {| apiKey := apiKey s; document := document s; storage := storage s;
     summaryCache := m; inFlightSummaries := inFlightSummaries s;
     summaryQueue := summaryQueue s;
     isProcessingSummaryQueue := isProcessingSummaryQueue s;
     current := current s; promises := promises s; calls := calls s;
     sent := sent s; now := now s; history := history s |}.
Definition set_inFlightSummaries m s :=
  {| apiKey := apiKey s; document := document s; storage := storage s;
     summaryCache := summaryCache s; inFlightSummaries := m;
     summaryQueue := summaryQueue s;
     isProcessingSummaryQueue := isProcessingSummaryQueue s;
     current := current s; promises := promises s; calls := calls s;
     sent := sent s; now := now s; history := history s |}.
Definition set_summaryQueue q s :=
  {| apiKey := apiKey s; document := document s; storage := storage s;
     summaryCache := summaryCache s; inFlightSummaries := inFlightSummaries s;
     summaryQueue := q;
     isProcessingSummaryQueue := isProcessingSummaryQueue s;
     current := current s; promises := promises s; calls := calls s;
     sent := sent s; now := now s; history := history s |}.
Definition set_isProcessingSummaryQueue b s :=
  {| apiKey := apiKey s; document := document s; storage := storage s;
     summaryCache := summaryCache s; inFlightSummaries := inFlightSummaries s;
     summaryQueue := summaryQueue s;
     isProcessingSummaryQueue := b;
     current := current s; promises := promises s; calls := calls s;
     sent := sent s; now := now s; history := history s |}.
Definition set_current r s :=
  {| apiKey := apiKey s; document := document s; storage := storage s;
     summaryCache := summaryCache s; inFlightSummaries := inFlightSummaries s;
     summaryQueue := summaryQueue s;
     isProcessingSummaryQueue := isProcessingSummaryQueue s;
     current := r; promises := promises s; calls := calls s;
     sent := sent s; now := now s; history := history s |}.
Definition settle (p : caller) (r : outcome) s :=
  {| apiKey := apiKey s; document := document s; storage := storage s;
     summaryCache := summaryCache s; inFlightSummaries := inFlightSummaries s;
     summaryQueue := summaryQueue s;
     isProcessingSummaryQueue := isProcessingSummaryQueue s;
     current := current s; promises := <[p := r]> (promises s);
     calls := calls s;
     sent := sent s; now := now s; history := history s |}.
Definition set_call (c : caller) (a : call_point) s :=
  {| apiKey := apiKey s; document := document s; storage := storage s;
     summaryCache := summaryCache s; inFlightSummaries := inFlightSummaries s;
     summaryQueue := summaryQueue s;
     isProcessingSummaryQueue := isProcessingSummaryQueue s;
     current := current s; promises := promises s;
     calls := <[c := a]> (calls s);
     sent := sent s; now := now s; history := history s |}.
Definition send (o : origin) (r : request) s :=
  {| apiKey := apiKey s; document := document s; storage := storage s;
     summaryCache := summaryCache s; inFlightSummaries := inFlightSummaries s;
     summaryQueue := summaryQueue s;
     isProcessingSummaryQueue := isProcessingSummaryQueue s;
     current := current s; promises := promises s; calls := calls s;
     sent := sent s ++ [(o, r)]; now := now s; history := history s |}.
Definition advance (ms : N) s :=
  {| apiKey := apiKey s; document := document s; storage := storage s;
     summaryCache := summaryCache s; inFlightSummaries := inFlightSummaries s;
     summaryQueue := summaryQueue s;
     isProcessingSummaryQueue := isProcessingSummaryQueue s;
     current := current s; promises := promises s; calls := calls s;
     sent := sent s; now := now s + ms; history := history s |}.
Definition note (m : mark) s :=
  {| apiKey := apiKey s; document := document s; storage := storage s;
     summaryCache := summaryCache s; inFlightSummaries := inFlightSummaries s;
     summaryQueue := summaryQueue s;
     isProcessingSummaryQueue := isProcessingSummaryQueue s;
     current := current s; promises := promises s; calls := calls s;
     sent := sent s; now := now s; history := history s ++ [(now s, m)] |}.

(** [processSummaryQueue], from its call to its [await]: the guard, the
    [shift], the flag, and the call of [runFn], which sends the backend
    request at once. *)
Definition processSummaryQueue (s : state) : state :=
  if isProcessingSummaryQueue s then s
  else
    match summaryQueue s with
    | [] => s
    | t :: rest =>
        note (Started t)
          (send (ByTask t) (summary_request (apiKey s) (task_email t))
             (set_current (Some (AwaitBackend t))
                (set_isProcessingSummaryQueue true
                   (set_summaryQueue rest s))))
    end.

(** [processSummaryQueue], from the settling of [runFn]: [task.resolve]
    or [task.reject], then the [finally] block. *)
Definition finishTask (t : task) (r : outcome) (s : state) : state :=
  let s1 := note (Finished t r) (settle (task_owner t) r (set_current None s)) in
  let s2 := set_isProcessingSummaryQueue false s1 in
  if (0 <? length (summaryQueue s2))%nat then processSummaryQueue s2 else s2.

(** [enqueueSummaryTask]: the executor of the new promise. *)
Definition enqueueSummaryTask (t : task) (s : state) : state :=
  processSummaryQueue
    (note (Enqueued t) (set_summaryQueue (summaryQueue s ++ [t]) s)).

(** The wrapper returns or throws to whoever called it. *)
Definition answer (c : caller) (r : outcome) (s : state) : state :=
  note (Answered c r) (set_call c (Settled r) s).

(** The [catch] of the wrapper: the direct call of the original method. *)
Definition fallBack (c : caller) (m : email) (s : state) : state :=
  set_call c (AwaitFallback m)
    (send (ByFallback c) (summary_request (apiKey s) m) s).

(** [generateEmailSummaryWithCacheQueue], from its call to its first
    [await]; the key derivation reads the document now. *)
Definition invoke (c : caller) (m : email) (s : state) : state :=
  let id :=
    computeSummaryId (document s) (options_id m) (emailSubject m)
      (emailContent m) (Some (or_else (options_time m) [])) in
  set_call c (AwaitId m id) s.

(** The wrapper, from the key to the next [await] or to its return. *)
Definition withId (c : caller) (m : email) (id : jsstring) (s : state)
  : state :=
  match getCachedSummary (summaryCache s) id with
  | Some cached => answer c (Fulfilled cached) (note (CacheHit c cached) s)
  | None =>
      match inFlightSummaries s !! id with
      | Some p => set_call c (AwaitInFlight m p) (note (Joined c p) s)
      | None =>
          let s1 :=
            enqueueSummaryTask
              {| task_id := id; task_owner := c; task_email := m |} s in
          set_call c (AwaitTask m id)
            (set_inFlightSummaries (<[id := c]> (inFlightSummaries s1)) s1)
      end
  end.

(** What the environment does to the script. *)
Inductive event :=
| Invoke (c : caller) (m : email)   (* generateEmailSummary(...) is called *)
| IdReady (c : caller)              (* the key of call [c] is delivered *)
| BackendDone (o : fetch_outcome)   (* the fetch of the running task settles *)
| StorageGetDone (success : bool)   (* chrome.storage.local.get settles *)
| StorageSetDone (success : bool)   (* chrome.storage.local.set settles *)
| Resume (c : caller)               (* the promise call [c] awaits has settled *)
| FallbackDone (c : caller) (o : fetch_outcome)
| Navigate (d : Document)           (* the page changes *)
| Tick (ms : N).                    (* time passes *)

(** One transition; [None] when the event cannot happen in the state. *)
Definition step (s : state) (e : event) : option state :=
  match e with
  | Invoke c m =>
      match calls s !! c with
      | None => Some (invoke c m s)
      | Some _ => None
      end
  | IdReady c =>
      match calls s !! c with
      | Some (AwaitId m id) => Some (withId c m id s)
      | _ => None
      end
  | BackendDone o =>
      match current s with
      | Some (AwaitBackend t) =>
          match callGeminiAPI_settled o with
          | Fulfilled summary =>
              (* setCachedSummary, up to its first await *)
              Some (set_current (Some (AwaitStorageGet t summary))
                      (set_summaryCache
                         (<[task_id t := summary]> (summaryCache s)) s))
          | Rejected e => Some (finishTask t (Rejected e) s)
          end
      | _ => None
      end
  | StorageGetDone success =>
      match current s with
      | Some (AwaitStorageGet t summary) =>
          if success then
            let raw := default ∅ (storage s) in
            Some (set_current
                    (Some (AwaitStorageSet t summary
                             (<[task_id t := summary]> raw))) s)
          else Some (finishTask t (Fulfilled summary) s)
      | _ => None
      end
  | StorageSetDone success =>
      match current s with
      | Some (AwaitStorageSet t summary raw) =>
          Some (finishTask t (Fulfilled summary)
                  (if success then set_storage (Some raw) s else s))
      | _ => None
      end
  | Resume c =>
      match calls s !! c with
      | Some (AwaitInFlight m p) =>
          match promises s !! p with
          | Some (Fulfilled v) => Some (answer c (Fulfilled v) s)
          | Some (Rejected _) => Some (fallBack c m s)
          | None => None
          end
      | Some (AwaitTask m id) =>
          match promises s !! c with
          | Some r =>
              let s1 :=
                set_inFlightSummaries (delete id (inFlightSummaries s)) s in
              match r with
              | Fulfilled v => Some (answer c (Fulfilled v) s1)
              | Rejected _ => Some (fallBack c m s1)
              end
          | None => None
          end
      | _ => None
      end
  | FallbackDone c o =>
      match calls s !! c with
      | Some (AwaitFallback m) => Some (answer c (callGeminiAPI_settled o) s)
      | _ => None
      end
  | Navigate d => Some (set_document d s)
  | Tick ms => Some (advance ms s)
  end.

(** A run: the events in order; an event that cannot happen is skipped. *)
Definition run (s : state) (es : list event) : state :=
  fold_left (fun s e => default s (step s e)) es s.

(** The script after [init]: the cache as loaded, everything else as the
    constructor leaves it. *)
Definition init (key : opt) (d : Document) (slot : option table)
    (readable : bool) : state :=
  {| apiKey := key; document := d; storage := slot;
     summaryCache := loadSummaryCache (if readable then Some slot else None);
     inFlightSummaries := ∅; summaryQueue := [];
     isProcessingSummaryQueue := false; current := None;
     promises := ∅; calls := ∅; sent := []; now := 0; history := [] |}.

(** The states the script can be in. *)
Inductive reachable : state -> Prop :=
| reachable_init key d slot readable : reachable (init key d slot readable)
| reachable_step s e s' : reachable s -> step s e = Some s' -> reachable s'.

(** ** Reading a run *)

(** The tasks enqueued, started and finished, each in the order of the
    history. *)
Definition enqueued (h : list (N * mark)) : list task :=
  omap (fun x => match x.2 with Enqueued t => Some t | _ => None end) h.

Definition started (h : list (N * mark)) : list task :=
  omap (fun x => match x.2 with Started t => Some t | _ => None end) h.

Definition finished (h : list (N * mark)) : list task :=
  omap (fun x => match x.2 with Finished t _ => Some t | _ => None end) h.

(** The tasks whose [runFn] sent a request, in order. *)
Definition sent_by_tasks (s : state) : list task :=
  omap (fun x => match x.1 with ByTask t => Some t | _ => None end) (sent s).

Definition task_of (r : run_point) : task :=
  match r with
  | AwaitBackend t | AwaitStorageGet t _ | AwaitStorageSet t _ _ => t
  end.

(** The task being processed, if any, and the tasks not yet settled. *)
Definition running (s : state) : list task :=
  option_list (task_of <$> current s).

Definition outstanding (s : state) : list task :=
  running s ++ summaryQueue s.

(** Replaying the marks of a history: the task open at its end, or
    [None] when a task was started while another was open, or finished
    while none was. *)
Definition replay_mark (open : option (option task)) (x : N * mark)
  : option (option task) :=
  match open, x.2 with
  | Some None, Started t => Some (Some t)
  | Some (Some _), Started _ => None
  | Some (Some _), Finished _ _ => Some None
  | Some None, Finished _ _ => None
  | _, _ => open
  end.

Definition replay (h : list (N * mark)) : option (option task) :=
  fold_left replay_mark h (Some None).

(** A call that has got past the in-flight check by making a task. *)
Definition owns (a : option call_point) : Prop :=
  match a with
  | Some (AwaitTask _ _) | Some (AwaitFallback _) | Some (Settled _) => True
  | _ => False
  end.

(** What holds of every state the script reaches. *)
Record invariant (s : state) : Prop := {
  inv_flag :
    isProcessingSummaryQueue s = true <-> is_Some (current s);
  inv_idle :
    current s = None -> summaryQueue s = [];
  inv_fifo :
    enqueued (history s) = started (history s) ++ summaryQueue s;
  inv_serial :
    started (history s) = finished (history s) ++ running s;
  inv_sent :
    sent_by_tasks s = started (history s);
  inv_owner : forall t,
    t ∈ outstanding s ->
    calls s !! task_owner t = Some (AwaitTask (task_email t) (task_id t))
    /\ promises s !! task_owner t = None;
  inv_nodup :
    NoDup (task_owner <$> outstanding s);
  inv_registered : forall c m id,
    calls s !! c = Some (AwaitTask m id) ->
    inFlightSummaries s !! id = Some c;
  inv_inflight : forall id c,
    inFlightSummaries s !! id = Some c ->
    exists m, calls s !! c = Some (AwaitTask m id);
  inv_promise : forall c r,
    promises s !! c = Some r -> owns (calls s !! c);
  inv_miss : forall t,
    t ∈ summaryQueue s \/ current s = Some (AwaitBackend t) ->
    getCachedSummary (summaryCache s) (task_id t) = None;
  inv_written : forall t v,
    current s = Some (AwaitStorageGet t v)
    \/ (exists raw, current s = Some (AwaitStorageSet t v raw)) ->
    summaryCache s !! task_id t = Some v;
  inv_kept : forall t v,
    (exists time, (time, Finished t (Fulfilled v)) ∈ history s) ->
    v <> [] ->
    summaryCache s !! task_id t = Some v;
  inv_enqueued : forall t,
    t ∈ enqueued (history s) -> owns (calls s !! task_owner t);
  inv_once :
    NoDup (task_owner <$> enqueued (history s));
  inv_settled : forall t r,
    (exists time, (time, Finished t r) ∈ history s) ->
    promises s !! task_owner t = Some r;
  inv_replay :
    replay (history s) = Some (task_of <$> current s) }.

(** Who awaits the promise of [p]: its owner, or a call that joined. *)
Definition awaits (s : state) (c : caller) (m : email) (p : caller) : Prop :=
  calls s !! c = Some (AwaitInFlight m p)
  \/ (c = p /\ exists k, calls s !! c = Some (AwaitTask m k)).


(** ** Sample pages and messages *)

(** A page showing no message identifier and no time. *)
Definition blank_page : Document := fun _ => None.

Definition element (attr : string) (value : opt) (text : jsstring)
  : Element :=
  {| getAttribute := fun a => if String.eqb a attr then value else None;
     textContent := text |}.

(** A page whose open message carries the identifier [18c2f]. *)
Definition page_with_message : Document :=
  fun q =>
    match q with
    | SelMainMessageId | SelMessageId =>
        Some (element "data-message-id" (Some (lit "18c2f")) [])
    | _ => None
    end.

(** A page showing the time [10:15 AM] and no message identifier. *)
Definition page_with_time : Document :=
  fun q =>
    match q with
    | SelMainTime | SelTime => Some (element "datetime" None (lit " 10:15 AM "))
    | _ => None
    end.


(** A request for the message with explicit id [id]. *)
Definition mail (id : string) : email :=
  {| emailContent := Some (lit "Let's meet Tuesday at 3pm");
     emailSubject := Some (lit "Meeting");
     emailSender := Some (lit "a@x.com");
     options_id := Some (lit id);
     options_time := Some (lit "10:15 AM") |}.

(** The script after [init] on a blank page, with nothing stored. *)
Definition fresh : state := init None blank_page None true.

(** The task made by call [c] for [mail id]. *)
Definition task_for (c : caller) (id : string) : task :=
  {| task_id := lit id; task_owner := c; task_email := mail id |}.

(** How call [c] has settled in state [s], if it has. *)
Definition result (s : state) (c : caller) : option outcome :=
  match calls s !! c with
  | Some (Settled r) => Some r
  | _ => None
  end.

(** The times at which a task of call [c] was started and finished. *)
Definition start_times (c : caller) (h : list (N * mark)) : list N :=
  omap (fun x => match x.2 with
                 | Started t => if decide (task_owner t = c) then Some x.1 else None
                 | _ => None
                 end) h.

Definition finish_times (c : caller) (h : list (N * mark)) : list N :=
  omap (fun x => match x.2 with
                 | Finished t _ => if decide (task_owner t = c) then Some x.1 else None
                 | _ => None
                 end) h.


(** One call for [mail id] by [c], from the call to its return, with the
    backend answering [text] and the storage behaving as [stored] says. *)
Definition one_call (c : caller) (id : string) (text : jsstring)
    (stored : bool) : list event :=
  [Invoke c (mail id); IdReady c; BackendDone (answer_with text);
   StorageGetDone stored]
    ++ (if stored then [StorageSetDone true] else [])
    ++ [Resume c].

(** Two calls for the same message, the second made before the first
    has settled; the backend then fails the task and answers the two
    direct calls differently. *)
Definition two_calls_task_fails : list event :=
  [Invoke 0 (mail "k"); Invoke 1 (mail "k"); IdReady 0; IdReady 1;
   BackendDone FetchFailed; Resume 0; Resume 1;
   FallbackDone 0 (answer_with (lit "Lunch at noon."));
   FallbackDone 1 (answer_with (lit "Dinner at eight."))].

(** The same two calls, the task succeeding. *)
Definition two_calls_task_succeeds : list event :=
  [Invoke 0 (mail "k"); Invoke 1 (mail "k"); IdReady 0; IdReady 1;
   BackendDone (answer_with (lit "Lunch at noon."));
   StorageGetDone true; StorageSetDone true; Resume 0; Resume 1].

(** Two calls for two messages; the first task settles 107 ms after the
    start, and a second of idle time follows. *)
Definition two_messages : list event :=
  [Invoke 0 (mail "a"); Invoke 1 (mail "b"); IdReady 0; IdReady 1;
   Tick 100; BackendDone (answer_with (lit "Lunch at noon."));
   StorageGetDone true; Tick 7; StorageSetDone true; Tick 1000].

(** ** Row identifiers *)

(** What [computeRowEmailId] asks of a row of the message list. *)
Inductive row_query :=
| RowMessageId          (* row.querySelector('[data-message-id]') *)
| RowClosestMessageId.  (* row.closest('[data-message-id]') *)

Definition Row := row_query -> option Element.

(** The object built by [extractEmailData] and completed by
    [handleMultiSelect]. *)
Record emailData := {
  data_sender : opt;
  data_subject : opt;
  data_preview : opt;
  data_time : opt;
  data_isUnread : bool;
  data_fullContent : opt;
  data_id : opt }.

(** [a || b] on two values that may be undefined. *)
Definition or_opt (a b : opt) : opt := if truthy a then a else b.

Definition computeRowEmailId (row : Row) (d : emailData) : jsstring :=
  let midEl := first_of (row RowMessageId) (row RowClosestMessageId) in
  let mid := midEl ≫= fun e => getAttribute e "data-message-id" in
  if truthy mid then lit "mid:" ++ or_else mid []
  else
    let first50 :=
      substring0 50
        (or_else (or_opt (data_fullContent d) (data_preview d)) []) in
    let composite :=
      or_else (data_subject d) [] ++ lit "|" ++ or_else (data_time d) []
        ++ lit "|" ++ first50 in
    lit "hash:" ++ computeSHA256Hex (Some composite).

(** The characters of a lower-case hexadecimal numeral. *)
Definition is_hex (c : N) : bool :=
  (48 <=? c) && (c <=? 57) || (97 <=? c) && (c <=? 102).

(** ** Time texts *)

(** [text.replace(/\s+/g, ' ')]: every run of white space becomes one
    space; [in_run] tells that the character before was white space. *)
Fixpoint collapse_from (in_run : bool) (s : jsstring) : jsstring :=
  match s with
  | [] => []
  | c :: r =>
      if is_space c then
        if in_run then collapse_from true r else 32 :: collapse_from true r
      else c :: collapse_from false r
  end.

Definition collapse (s : jsstring) : jsstring := collapse_from false s.

(** [text.replace(/c/g, ' ')] for a single character [c]. *)
Definition replace_char (from to : N) (s : jsstring) : jsstring :=
  map (fun c => if c =? from then to else c) s.

Definition cleanTimeText (text : opt) : jsstring :=
  trim (collapse (replace_char 8239 32 (replace_char 160 32 (or_else text [])))).

(** A text in which white space occurs only as single U+0020 characters,
    and not at the start when [after_space] is set. *)
Fixpoint single_spaced_from (after_space : bool) (s : jsstring) : bool :=
  match s with
  | [] => true
  | c :: r =>
      if is_space c then
        (c =? 32) && negb after_space && single_spaced_from true r
      else single_spaced_from false r
  end.

(** ** The method slot of the wrapper *)

(** The functions that [this.generateEmailSummary] can hold. *)
Inductive method :=
| Plain      (* the method of the class: one direct backend call *)
| Wrapper.   (* generateEmailSummaryWithCacheQueue *)

Record slots := {
  generateEmailSummary_slot : method;
  _originalGenerateEmailSummary : option method;
  _summaryWrapperInstalled : bool }.

(** The slots as the constructor leaves them. *)
Definition constructed : slots :=
  {| generateEmailSummary_slot := Plain;
     _originalGenerateEmailSummary := None;
     _summaryWrapperInstalled := false |}.

Definition installSummaryWrapper (o : slots) : slots :=
  if _summaryWrapperInstalled o then o
  else
    {| generateEmailSummary_slot := Wrapper;
       _originalGenerateEmailSummary := Some (generateEmailSummary_slot o);
       _summaryWrapperInstalled := true |}.

(** ** Scripts: methods that wait for the page, a timer or a call *)

(** A method that makes requests [e : E], each answered by a value of
    [R e], and returns a value of [A] or throws one of [X]. *)
Inductive script (E : Type) (R : E -> Type) (X A : Type) : Type :=
| Finish (a : A)
| Abort (x : X)
| Do (e : E) (k : R e -> script E R X A).
Arguments Finish {E R X A} a.
Arguments Abort {E R X A} x.
Arguments Do {E R X A} e k.

(** [try { p } catch (x) { handler x }] *)
Fixpoint catch {E R X A} (p : script E R X A)
    (handler : X -> script E R X A) : script E R X A :=
  match p with
  | Finish a => Finish a
  | Abort x => handler x
  | Do e k => Do e (fun r => catch (k r) handler)
  end.

(** The environment answers every request, knowing the requests made so
    far. *)
Definition environment (E : Type) (R : E -> Type) : Type :=
  list E -> forall e : E, R e.

(** Running a script: the requests made, in order, after [past], and the
    result. *)
Fixpoint play {E R X A} (env : environment E R) (p : script E R X A)
    (past : list E) : list E * (X + A) :=
  match p with
  | Finish a => (past, inr a)
  | Abort x => (past, inl x)
  | Do e k => play env (k (env past e)) (past ++ [e])
  end.

(** *** Waiting for the mail page *)

Inductive page_request :=
| CheckGmail        (* does one of the page's selectors match? *)
| Sleep (ms : N).   (* setTimeout(..., ms) / await this.delay(ms) *)

Definition page_answer (e : page_request) : Type :=
  match e with
  | CheckGmail => bool
  | Sleep _ => unit
  end.

Abbreviation page_script := (script page_request page_answer jsstring unit).

(** [checkGmail] inside [waitForGmailLoad]; [attempts] is the counter
    before the call, [fuel] bounds the timer callbacks still to come. *)
Fixpoint checkGmail (fuel maxAttempts attempts : nat) : page_script :=
  Do CheckGmail (fun gmailContent : bool =>
    if gmailContent then Finish tt
    else if (S attempts <? maxAttempts)%nat then
      match fuel with
      | S fuel' =>
          Do (Sleep 500) (fun _ => checkGmail fuel' maxAttempts (S attempts))
      | O => Abort (lit "Gmail interface not found")
      end
    else Abort (lit "Gmail interface not found")).

Definition waitForGmailLoad : page_script := checkGmail 30 30 0.

(** The loop of [waitForGmailLoadWithRetries], from iteration
    [attempt]; [fuel] bounds the iterations still to come. *)
Fixpoint retries (fuel maxRetries attempt : nat) : page_script :=
  match fuel with
  | O => Finish tt
  | S fuel' =>
      if (attempt <? maxRetries)%nat then
        catch waitForGmailLoad (fun error =>
          if (attempt =? maxRetries - 1)%nat then Abort error
          else
            Do (Sleep (1000 * (N.of_nat attempt + 1)))
               (fun _ => retries fuel' maxRetries (S attempt)))
      else Finish tt
  end.

Definition waitForGmailLoadWithRetries (maxRetries : nat) : page_script :=
  retries maxRetries maxRetries 0.

(** The checks made and the time slept in a list of requests. *)
Definition is_check (e : page_request) : bool :=
  match e with
  | CheckGmail => true
  | Sleep _ => false
  end.

Definition checks (t : list page_request) : nat :=
  length (List.filter is_check t).

Definition slept (t : list page_request) : N :=
  foldr (fun e acc => match e with Sleep ms => ms + acc | _ => acc end) 0 t.

(** *** Summaries for the selected messages *)

(** [String(n)] for a natural number: decimal digits. *)
Fixpoint decimal_digits (fuel : nat) (n : N) (acc : jsstring) : jsstring :=
  match fuel with
  | O => acc
  | S f =>
      let acc' := (48 + n mod 10) :: acc in
      if n / 10 =? 0 then acc' else decimal_digits f (n / 10) acc'
  end.

Definition decimal (n : N) : jsstring :=
  decimal_digits (S (N.to_nat (N.log2 n))) n [].

(** [error.message]; [native] gives the messages of the errors that the
    platform makes itself. *)
Definition message (native : error -> jsstring) (e : error) : jsstring :=
  match e with
  | ApiError status => lit "API error: " ++ decimal status
  | NoContentGenerated => lit "No content generated"
  | _ => native e
  end.

(** An entry [{ ...email, summary }]. *)
Definition entry : Type := emailData * jsstring.

Inductive batch_request :=
| LookUp (id : jsstring)          (* this.getCachedSummary(email.id) *)
| Summarize (m : email)           (* await this.generateEmailSummary(...) *)
| Render (summaries : list entry) (* the guarded updateMultiSidebarContent,
                                     whose failure is ignored *)
| Delay (ms : N).                 (* await this.delay(ms) *)

Definition batch_answer (e : batch_request) : Type :=
  match e with
  | LookUp _ => opt
  | Summarize _ => outcome
  | Render _ => unit
  | Delay _ => unit
  end.

Abbreviation batch_script :=
  (script batch_request batch_answer error (list entry)).

(** The arguments [generateMultiEmailSummaries] passes to the wrapper. *)
Definition request_of (d : emailData) : email :=
  {| emailContent := or_opt (data_fullContent d) (data_preview d);
     emailSubject := data_subject d;
     emailSender := data_sender d;
     options_id := data_id d;
     options_time := data_time d |}.

(** The loop of [generateMultiEmailSummaries], with the entries pushed
    so far. *)
Fixpoint summarize_all (native : error -> jsstring)
    (emailsData : list emailData) (summaries : list entry) : batch_script :=
  match emailsData with
  | [] => Finish summaries
  | email :: rest =>
      let generate :=
        Do (Summarize (request_of email)) (fun r : outcome =>
          let summary :=
            match r with
            | Fulfilled summary => summary
            | Rejected error =>
                lit "Error generating summary: " ++ message native error
            end in
          let summaries' := summaries ++ [(email, summary)] in
          Do (Render summaries') (fun _ =>
            Do (Delay 500) (fun _ => summarize_all native rest summaries'))) in
      if truthy (data_id email) then
        Do (LookUp (or_else (data_id email) [])) (fun cached : opt =>
          if truthy cached then
            let summaries' := summaries ++ [(email, or_else cached [])] in
            Do (Render summaries') (fun _ =>
              summarize_all native rest summaries')
          else generate)
      else generate
  end.

Definition generateMultiEmailSummaries (native : error -> jsstring)
    (emailsData : list emailData) : batch_script :=
  summarize_all native emailsData [].

(** What counts for the pace of the backend calls: a call of the wrapper
    ([None]) or a pause ([Some ms]). *)
Definition beat (e : batch_request) : option (option N) :=
  match e with
  | Summarize _ => Some None
  | Delay ms => Some (Some ms)
  | _ => None
  end.

(** The items that the loop looks up and finds, given the answers of the
    environment, are decided while it runs; [misses] counts the calls of
    the wrapper in a list of requests. *)
Definition misses (t : list batch_request) : nat :=
  length (omap (fun e => match e with Summarize m => Some m | _ => None end) t).

(** ** Reading the storage and the calls *)

(** The table under the slot, empty when the slot is not there. *)
Definition stored (s : state) : table := default ∅ (storage s).

(** The events that settle the await of the running task: the one it is
    suspended on, with any outcome. *)
Definition settles (rp : run_point) (e : event) : bool :=
  match rp, e with
  | AwaitBackend _, BackendDone _ => true
  | AwaitStorageGet _ _, StorageGetDone _ => true
  | AwaitStorageSet _ _ _, StorageSetDone _ => true
  | _, _ => false
  end.

(** A run in which nothing happens but such settlements, each of the
    await pending when it happens. *)
Fixpoint settling (s : state) (es : list event) : bool :=
  match es with
  | [] => true
  | e :: es' =>
      match current s with
      | Some rp => settles rp e && settling (default s (step s e)) es'
      | None => false
      end
  end.

(** The awaits that the running task may still make, and those of the
    queue: three for each task, the backend call, the read and the write
    of the storage. *)
Definition pending_awaits (rp : option run_point) : nat :=
  match rp with
  | Some (AwaitBackend _) => 3
  | Some (AwaitStorageGet _ _) => 2
  | Some (AwaitStorageSet _ _ _) => 1
  | None => 0
  end.

Definition work (s : state) : nat :=
  pending_awaits (current s) + 3 * length (summaryQueue s).

(** The direct calls made by call [c]. *)
Definition direct_calls (c : caller) (s : state) : list request :=
  omap (fun x => match x.1 with
                 | ByFallback c' => if decide (c' = c) then Some x.2 else None
                 | ByTask _ => None
                 end) (sent s).

(** How many direct calls a call has made by the time it is at a given
    point: none before the [catch], one after it. *)
Definition direct_calls_at (a : option call_point) (n : nat) : Prop :=
  match a with
  | Some (AwaitFallback _) | Some (Settled (Rejected _)) => n = 1%nat
  | Some (Settled (Fulfilled _)) => (n <= 1)%nat
  | _ => n = 0%nat
  end.

(** The requests of [n + 1] checks of the page, 500 ms apart. *)
Definition rounds (n : nat) : list page_request :=
  mjoin (replicate n [CheckGmail; Sleep 500]).

Definition polls (n : nat) : list page_request := rounds n ++ [CheckGmail].

(** The pauses of the retry loop from iteration [attempt] on, when each
    of the [fuel] iterations left fails. *)
Fixpoint backoff (attempt fuel : nat) : N :=
  match fuel with
  | O => 0
  | S O => 0
  | S fuel' => 1000 * (N.of_nat attempt + 1) + backoff (S attempt) fuel'
  end.

(** The page never shows. *)
Definition never_there : environment page_request page_answer :=
  fun _ e =>
    match e with
    | CheckGmail => false
    | Sleep _ => tt
    end.

(** The error of [waitForGmailLoad]. *)
Definition not_found : jsstring := lit "Gmail interface not found".

(** ** More samples *)

(** A row that carries no message identifier. *)
Definition plain_row : Row := fun _ => None.

(** The data extracted from such a row. *)
Definition lunch : emailData :=
  {| data_sender := Some (lit "a@x.com");
     data_subject := Some (lit "Lunch");
     data_preview := Some (lit "See you at noon");
     data_time := Some (lit "10:15 AM");
     data_isUnread := true;
     data_fullContent := None;
     data_id := None |}.

(** * Properties *)

(** ** Strings and digest *)

(** The digest agrees with the published test vectors. *)
Example digest_abc :
  computeSHA256Hex (Some (lit "abc"))
  = lit "ba7816bf8f01cfea414140de5dae2223b00361a396177a9cb410ff61f20015ad".
Proof. vm_compute. reflexivity. Qed.

Example digest_empty :
  computeSHA256Hex None
  = lit "e3b0c44298fc1c149afbf4c8996fb92427ae41e4649b934ca495991b7852b855".
Proof. vm_compute. reflexivity. Qed.

Example digest_two_blocks :
  computeSHA256Hex
    (Some (lit "abcdbcdecdefdefgefghfghighijhijkijkljklmklmnlmnomnopnopq"))
  = lit "248d6a61d20638b8e5c026930c3e6039a33ce45964ff2167f6ecedd419db06c1".
Proof. vm_compute. reflexivity. Qed.

(** U+00E9 and the pair D83D DE00 (U+1F600) in UTF-8; a lone surrogate. *)
Example encode_samples :
  encode [233] = [195; 169]
  /\ encode [55357; 56832] = [240; 159; 152; 128]
  /\ encode [55357; 97] = [239; 191; 189; 97].
Proof. vm_compute. auto. Qed.

Example trim_sample : trim (lit "  a b ") = lit "a b" /\ trim [10; 32] = [].
Proof. vm_compute. auto. Qed.

Section Digest.

Lemma land_255_lt (a : N) : N.land a 255 < 256.
Proof.
  change 255 with (N.ones 8). rewrite N.land_ones.
  apply N.mod_lt. discriminate.
Qed.

Lemma be_bytes_length n x : length (SHA256.be_bytes n x) = n.
Proof.
  unfold SHA256.be_bytes.
  by rewrite length_map, length_rev, length_seq.
Qed.

Lemma be_bytes_small n x : Forall (fun b => b < 256) (SHA256.be_bytes n x).
Proof.
  unfold SHA256.be_bytes. apply Forall_map, Forall_forall.
  intros i _. apply land_255_lt.
Qed.

Lemma digest_length msg : length (SHA256.digest msg) = 32%nat.
Proof.
  unfold SHA256.digest, SHA256.chain_bytes.
  by rewrite !length_app, !be_bytes_length.
Qed.

Lemma digest_small msg : Forall (fun b => b < 256) (SHA256.digest msg).
Proof.
  unfold SHA256.digest, SHA256.chain_bytes.
  rewrite !Forall_app. repeat split; apply be_bytes_small.
Qed.

(** A property checked on the 256 byte values holds of every byte. *)
Lemma every_byte (P : N -> bool) :
  forallb P (map N.of_nat (seq 0 256)) = true ->
  forall b, b < 256 -> P b = true.
Proof.
  intros H b Hb. rewrite forallb_forall in H. apply H.
  apply in_map_iff. exists (N.to_nat b). split; [lia|].
  apply in_seq. lia.
Qed.

Lemma byte_two_digits b :
  b < 256 ->
  padStart0 2 (toString16 b) = [hex_digit (b / 16); hex_digit (b mod 16)].
Proof.
  intros Hb.
  pose (P := fun b =>
    bool_decide (padStart0 2 (toString16 b)
                 = [hex_digit (b / 16); hex_digit (b mod 16)])).
  assert (HP : P b = true).
  { apply every_byte; [|done]. vm_compute. reflexivity. }
  unfold P in HP. by apply bool_decide_eq_true in HP.
Qed.

Lemma fold_hex bytes acc :
  Forall (fun b => b < 256) bytes ->
  fold_left (fun hex b => hex ++ padStart0 2 (toString16 b)) bytes acc
  = acc ++ hex_encode bytes.
Proof.
  intros H. revert acc. induction H as [|b bytes Hb _ IH]; intros acc; simpl.
  - by rewrite app_nil_r.
  - rewrite IH, byte_two_digits by done. by rewrite <- app_assoc.
Qed.

Lemma hex_encode_length bytes :
  length (hex_encode bytes) = (2 * length bytes)%nat.
Proof.
  unfold hex_encode. induction bytes as [|b bytes IH]; simpl; [done|].
  rewrite IH. lia.
Qed.

(** [computeSHA256Hex] prints the digest of the encoded input. *)
Lemma computeSHA256Hex_spec input :
  computeSHA256Hex input
  = hex_encode (SHA256.digest (encode (or_else input []))).
Proof.
  unfold computeSHA256Hex. rewrite fold_hex by apply digest_small. done.
Qed.

Lemma computeSHA256Hex_length input :
  length (computeSHA256Hex input) = 64%nat.
Proof.
  by rewrite computeSHA256Hex_spec, hex_encode_length, digest_length.
Qed.

End Digest.

(** ** Key derivation *)

Section Keys.

Implicit Types (d : Document) (explicitId subject body time : opt).

Lemma or_else_some_nil (x : jsstring) : or_else (Some x) [] = x.
Proof. by destruct x. Qed.

Lemma truthy_false_inv (x : opt) :
  truthy x = false -> x = None \/ x = Some [].
Proof. destruct x as [[|]|]; simpl; intros; auto; discriminate. Qed.

Lemma computeSummaryId_explicit d e subject body time :
  e <> [] -> computeSummaryId d (Some e) subject body time = e.
Proof. intros He. destruct e; [done|reflexivity]. Qed.

Lemma computeSummaryId_open_message d explicitId subject body time :
  truthy explicitId = false ->
  getOpenMessageIdFromDOM d <> [] ->
  computeSummaryId d explicitId subject body time
  = lit "mid:" ++ getOpenMessageIdFromDOM d.
Proof.
  intros He Hm. unfold computeSummaryId.
  destruct (truthy_false_inv _ He) as [-> | ->];
    by destruct (getOpenMessageIdFromDOM d).
Qed.

Lemma computeSummaryId_hash d explicitId subject body time :
  truthy explicitId = false ->
  getOpenMessageIdFromDOM d = [] ->
  computeSummaryId d explicitId subject body time
  = lit "hash:"
      ++ hex_encode
           (SHA256.digest
              (encode (or_else subject [] ++ lit "|"
                         ++ or_else time (extractOpenEmailTimeFromDOM d)
                         ++ lit "|" ++ take 50 (or_else body [])))).
Proof.
  intros He Hm. unfold computeSummaryId. rewrite Hm.
  destruct (truthy_false_inv _ He) as [-> | ->];
    rewrite computeSHA256Hex_spec, !or_else_some_nil; reflexivity.
Qed.

End Keys.

(** C5, refuted as stated: an explicit id [abc] is not returned as
    [mid:abc]. *)
Lemma C5_explicit_id_gets_no_prefix :
  computeSummaryId blank_page (Some (lit "abc")) None None None
  <> lit "mid:" ++ lit "abc".
Proof. intros H. vm_compute in H. discriminate. Qed.

(** C5, amended: for every call in which explicitId is a non-empty
    string, the returned key is explicitId itself, verbatim, with no
    prefix added. *)
Theorem C5_explicit_id_verbatim (d : Document) (explicitId : jsstring)
    (subject body time : opt) :
  explicitId <> [] ->
  computeSummaryId d (Some explicitId) subject body time = explicitId.
Proof. apply computeSummaryId_explicit. Qed.

Lemma C5_explicit_id_verbatim_witness :
  computeSummaryId page_with_message (Some (lit "hash:00ff"))
    (Some (lit "Meeting")) (Some (lit "Let's meet")) None
  = lit "hash:00ff".
Proof. apply C5_explicit_id_verbatim. discriminate. Defined.

(** C6, refuted as stated: with no explicit id, no message identifier on
    the page and no timestamp passed, the key is not the digest of
    [Meeting||Let's meet] when the page shows a time. *)
Lemma C6_missing_time_is_read_from_page :
  getOpenMessageIdFromDOM page_with_time = []
  /\ computeSummaryId page_with_time None
       (Some (lit "Meeting")) (Some (lit "Let's meet")) None
     <> hash_key_of_fields (Some (lit "Meeting")) (Some (lit "Let's meet")) None.
Proof.
  split; [reflexivity|]. intros H. vm_compute in H. discriminate.
Qed.

(** C6, amended: for every call with no explicit id and no message
    identifier on the page, the key is [hash:] followed by the
    64-character hex encoding of the SHA-256 digest of
    subject + "|" + timestamp + "|" + first 50 characters of body, where a
    missing subject or body is the empty string and a missing or empty
    timestamp is replaced by the time the page shows for the open item,
    which is the empty string when the page shows none. *)
Theorem C6_hash_key (d : Document) (explicitId subject body time : opt) :
  truthy explicitId = false ->
  getOpenMessageIdFromDOM d = [] ->
  let t := or_else time (extractOpenEmailTimeFromDOM d) in
  let digest :=
    SHA256.digest
      (encode (or_else subject [] ++ lit "|" ++ t ++ lit "|"
                 ++ take 50 (or_else body []))) in
  computeSummaryId d explicitId subject body time
  = lit "hash:" ++ hex_encode digest
  /\ length (hex_encode digest) = 64%nat
  /\ (truthy time = true \/ extractOpenEmailTimeFromDOM d = [] ->
      computeSummaryId d explicitId subject body time
      = hash_key_of_fields subject body time).
Proof.
  intros He Hm t digest. subst t digest. split; [|split].
  - by apply computeSummaryId_hash.
  - by rewrite hex_encode_length, digest_length.
  - intros Ht. rewrite computeSummaryId_hash by done.
    unfold hash_key_of_fields. do 5 f_equal.
    destruct Ht as [Ht | Ht].
    + by destruct time as [[|]|].
    + rewrite Ht. by destruct time as [[|]|].
Qed.

Lemma C6_hash_key_witness :
  let d := page_with_time in
  let subject := Some (lit "Meeting") in
  let body := Some (lit "Let's meet") in
  let digest :=
    SHA256.digest
      (encode (or_else subject [] ++ lit "|"
                 ++ or_else None (extractOpenEmailTimeFromDOM d) ++ lit "|"
                 ++ take 50 (or_else body []))) in
  computeSummaryId d None subject body None = lit "hash:" ++ hex_encode digest
  /\ length (hex_encode digest) = 64%nat
  /\ (truthy None = true \/ extractOpenEmailTimeFromDOM d = [] ->
      computeSummaryId d None subject body None
      = hash_key_of_fields subject body None).
Proof.
  exact (C6_hash_key page_with_time None (Some (lit "Meeting"))
           (Some (lit "Let's meet")) None eq_refl eq_refl).
Defined.

(** C7, refuted as stated: two calls with identical arguments return
    different keys on two pages. *)
Lemma C7_key_depends_on_page :
  computeSummaryId blank_page None (Some (lit "Meeting"))
    (Some (lit "Let's meet")) (Some (lit "10:15 AM"))
  <> computeSummaryId page_with_message None (Some (lit "Meeting"))
       (Some (lit "Let's meet")) (Some (lit "10:15 AM")).
Proof. intros H. vm_compute in H. discriminate. Qed.

(** C7, amended: the key derivation is deterministic and free of side
    effects, with no network or storage access, but it does read the
    page: two calls with identical arguments return the same key whenever
    explicitId is a non-empty string, or the two pages show the same
    message identifier and, if they show none and no timestamp is passed,
    the same time.  The call of the wrapper that derives the key sends
    nothing to the backend and leaves the storage and the cache alone. *)
Theorem C7_key_is_function_of_arguments_and_page (d1 d2 : Document)
    (explicitId subject body time : opt)
    (s : state) (c : caller) (m : email) :
  truthy explicitId = true
  \/ (getOpenMessageIdFromDOM d1 = getOpenMessageIdFromDOM d2
      /\ (getOpenMessageIdFromDOM d1 <> []
          \/ truthy time = true
          \/ extractOpenEmailTimeFromDOM d1 = extractOpenEmailTimeFromDOM d2)) ->
  computeSummaryId d1 explicitId subject body time
  = computeSummaryId d2 explicitId subject body time
  /\ sent (invoke c m s) = sent s
  /\ storage (invoke c m s) = storage s
  /\ summaryCache (invoke c m s) = summaryCache s.
Proof.
  intros H. split; [|done].
  destruct H as [He | [Hm Ht]].
  - by destruct explicitId as [[|]|].
  - destruct (truthy explicitId) eqn:He.
    { by destruct explicitId as [[|]|]. }
    destruct (decide (getOpenMessageIdFromDOM d1 = [])) as [Hn | Hn].
    + rewrite !computeSummaryId_hash by congruence.
      destruct Ht as [Ht | [Ht | Ht]]; [done| |by rewrite Ht].
      by destruct time as [[|]|].
    + rewrite !computeSummaryId_open_message by congruence.
      by rewrite Hm.
Qed.

Lemma C7_key_is_function_of_arguments_and_page_witness :
  computeSummaryId blank_page None (Some (lit "Meeting")) None
    (Some (lit "10:15 AM"))
  = computeSummaryId page_with_time None (Some (lit "Meeting")) None
      (Some (lit "10:15 AM")).
Proof.
  refine (proj1 (C7_key_is_function_of_arguments_and_page
                   blank_page page_with_time None (Some (lit "Meeting")) None
                   (Some (lit "10:15 AM"))
                   (init None blank_page None true) 0%nat
                   {| emailContent := None; emailSubject := None;
                      emailSender := None; options_id := None;
                      options_time := None |} _)).
  right. split; [reflexivity|]. right. left. reflexivity.
Defined.

(** ** The backend client *)

Section Backend.

Lemma generateEmailSummary_unfold key m :
  generateEmailSummary key m
  = Fetch (summary_request key m) (fun o => io_of (callGeminiAPI_settled o)).
Proof. reflexivity. Qed.

Lemma exec_io_of r net :
  exec (io_of r) net
  = (Some match r with Fulfilled v => inr v | Rejected e => inl e end, []).
Proof. by destruct r. Qed.

Lemma null_or_not (v : json) : v = JNull \/ v <> JNull.
Proof. destruct v; auto; right; discriminate. Qed.

Lemma walk_none path : fold_left walk path None = None.
Proof. by induction path. Qed.

Lemma at_path_walk v path :
  at_path v path = fold_left walk path (Some v).
Proof.
  revert v. induction path as [|p path IH]; intros v; [done|].
  simpl. destruct v; simpl; try apply eq_sym, walk_none;
    (destruct (get _ p) as [w|]; [apply IH | apply eq_sym, walk_none]).
Qed.

(** The text read by [data.candidates?.[0]?.content?.parts?.[0]?.text]
    is the value at that path. *)
Lemma generatedText_at_path data :
  data <> JNull ->
  chain (chain (chain (chain (chain (member "candidates" data)
    first) (member "content")) (member "parts")) first) (member "text")
  = at_path data [Field "candidates"; First; Field "content";
                  Field "parts"; First; Field "text"].
Proof.
  intros Hd. rewrite at_path_walk. simpl. unfold walk at 5.
  by destruct data.
Qed.

Lemma settled_response status data :
  ok status = true -> data <> JNull ->
  callGeminiAPI_settled (Response status (Some data))
  = if falsy (at_path data content_path) then Rejected NoContentGenerated
    else match at_path data content_path with
         | Some (JString s) => Fulfilled (trim s)
         | _ => Rejected TypeError
         end.
Proof.
  intros Hok Hd. rewrite <- generatedText_at_path by done.
  simpl. rewrite Hok. by destruct data.
Qed.

Lemma settled_fulfilled o text :
  callGeminiAPI_settled o = Fulfilled text <->
  exists status body content,
    o = Response status (Some body) /\ ok status = true
    /\ generated_content body = Some content /\ text = trim content.
Proof.
  split.
  - destruct o as [|status [data|]]; [done| |].
    + destruct (ok status) eqn:Hok; [|by simpl; rewrite Hok].
      destruct (null_or_not data) as [-> | Hd]; [by simpl; rewrite Hok|].
      rewrite settled_response by done.
      intros H. exists status, data.
      unfold generated_content.
      destruct (at_path data content_path) as [[|b|q|[|c s']|l|l]|];
        simpl in H; try done;
        try (by destruct b); try (by destruct (Qeq_bool q 0)).
      injection H as <-. by eexists.
    + simpl. by destruct (ok status).
  - intros (status & body & content & -> & Hok & Hc & ->).
    unfold generated_content in Hc.
    destruct (null_or_not body) as [-> | Hd]; [done|].
    rewrite settled_response by done.
    destruct (at_path body content_path) as [[|b|q|[|c s']|l|l]|];
      try done.
    by injection Hc as <-.
Qed.

Lemma settled_rejected o :
  (exists e, callGeminiAPI_settled o = Rejected e) <->
  o = FetchFailed
  \/ (exists status body, o = Response status body /\ ok status = false)
  \/ (exists status body,
        o = Response status body /\ body ≫= generated_content = None).
Proof.
  split.
  - intros [e He].
    destruct o as [|status body]; [by left|].
    destruct (ok status) eqn:Hok; [|right; left; by eexists _, _].
    right; right. exists status, body. split; [done|].
    destruct body as [data|]; [simpl|done].
    destruct (generated_content data) as [content|] eqn:Hc; [|done].
    assert (callGeminiAPI_settled (Response status (Some data))
            = Fulfilled (trim content)) as Hf.
    { apply settled_fulfilled. by eexists _, _, _. }
    congruence.
  - intros H.
    destruct (callGeminiAPI_settled o) as [text|e] eqn:Hs; [|by eexists].
    apply settled_fulfilled in Hs
      as (status & body & content & -> & Hok & Hc & _).
    destruct H as [H | [(st & b & H & Hno) | (st & b & H & Hno)]];
      [done| |]; injection H as <- <-; simpl in *; congruence.
Qed.

End Backend.

(** C8: the backend client's generate operation returns a text exactly
    when the HTTP call succeeds with a 2xx status and the response
    contains generated content, fails with an error in exactly the cases
    of a network failure, a non-2xx status, or a response lacking
    generated content, and sends one request whatever the answer: it
    never retries. *)
Theorem C8_generate_contract (apiKey : opt) (prompt : jsstring)
    (maxTokens : N) (o : fetch_outcome) (net : list fetch_outcome) :
  exists r,
    exec (callGeminiAPI apiKey prompt maxTokens) (o :: net)
    = (Some r, [ {| req_key := apiKey; req_text := prompt;
                    req_maxOutputTokens := maxTokens |} ])
    /\ ((exists text, r = inr text) <->
        (exists status body,
            o = Response status (Some body)
            /\ 200 <= status <= 299
            /\ is_Some (generated_content body)))
    /\ ((exists e, r = inl e) <->
        (o = FetchFailed
         \/ (exists status body,
               o = Response status body /\ ~ 200 <= status <= 299)
         \/ (exists status body,
               o = Response status body
               /\ body ≫= generated_content = None))).
Proof.
  assert (Hok : forall status, ok status = true <-> 200 <= status <= 299).
  { intros status. unfold ok. rewrite andb_true_iff, !N.leb_le. done. }
  exists (match callGeminiAPI_settled o with
          | Fulfilled v => inr v
          | Rejected e => inl e
          end).
  split; [|split].
  - simpl. by rewrite exec_io_of.
  - split.
    + intros [text Ht].
      destruct (callGeminiAPI_settled o) as [v|] eqn:Hs; [|done].
      apply settled_fulfilled in Hs
        as (status & body & content & -> & Hs & Hc & _).
      exists status, body. rewrite <- Hok, Hc. eauto.
    + intros (status & body & -> & Hs & [content Hc]).
      exists (trim content).
      assert (callGeminiAPI_settled (Response status (Some body))
              = Fulfilled (trim content)) as ->; [|done].
      apply settled_fulfilled. exists status, body, content.
      by rewrite Hok.
  - split.
    + intros [e He].
      assert (exists e, callGeminiAPI_settled o = Rejected e) as H.
      { destruct (callGeminiAPI_settled o); [done|by eexists]. }
      apply settled_rejected in H.
      destruct H as [H | [(st & b & H & Hno) | H]];
        [by left | right; left | by right; right].
      exists st, b. split; [done|]. rewrite <- Hok. congruence.
    + intros H.
      assert (exists e, callGeminiAPI_settled o = Rejected e) as [e ->];
        [|by eexists].
      apply settled_rejected.
      destruct H as [H | [(st & b & H & Hno) | H]];
        [by left | right; left | by right; right].
      exists st, b. split; [done|]. rewrite <- Hok in Hno.
      by destruct (ok st).
Qed.

(** ** The invariant holds in every reachable state *)

Ltac hist :=
  unfold replay, enqueued, started, finished, sent_by_tasks, outstanding,
    running in *;
  simpl in *; rewrite ?omap_app, ?fold_left_app; simpl; rewrite ?app_nil_r.

Ltac open_inv H :=
  pose proof (inv_flag _ H) as I_flag;
  pose proof (inv_idle _ H) as I_idle;
  pose proof (inv_fifo _ H) as I_fifo;
  pose proof (inv_serial _ H) as I_serial;
  pose proof (inv_sent _ H) as I_sent;
  pose proof (inv_owner _ H) as I_owner;
  pose proof (inv_nodup _ H) as I_nodup;
  pose proof (inv_registered _ H) as I_registered;
  pose proof (inv_inflight _ H) as I_inflight;
  pose proof (inv_promise _ H) as I_promise;
  pose proof (inv_miss _ H) as I_miss;
  pose proof (inv_written _ H) as I_written;
  pose proof (inv_kept _ H) as I_kept;
  pose proof (inv_enqueued _ H) as I_enqueued;
  pose proof (inv_once _ H) as I_once;
  pose proof (inv_settled _ H) as I_settled;
  pose proof (inv_replay _ H) as I_replay.

Section Preservation.

Implicit Types (s : state) (c : caller) (m : email) (t : task).

Lemma inv_init key d slot readable : invariant (init key d slot readable).
Proof.
  split; simpl; try done.
  - intros t H. by apply elem_of_nil in H.
  - constructor.
  - intros t [H | H]; [|done]. by apply elem_of_nil in H.
  - intros t v [H | [raw H]]; done.
  - intros t v [time H]. by apply elem_of_nil in H.
  - intros t H. by apply elem_of_nil in H.
  - constructor.
  - intros t r [time H]. by apply elem_of_nil in H.
Qed.

Lemma outstanding_registered s t :
  invariant s -> t ∈ outstanding s ->
  inFlightSummaries s !! task_id t = Some (task_owner t).
Proof.
  intros Hi Ht. destruct (inv_owner s Hi t Ht) as [Hc _].
  by apply (inv_registered s Hi) in Hc.
Qed.

Lemma outstanding_unsettled s c r :
  invariant s -> promises s !! c = Some r ->
  forall t, t ∈ outstanding s -> task_owner t <> c.
Proof.
  intros Hi Hp t Ht Heq. destruct (inv_owner s Hi t Ht) as [_ Hn]. congruence.
Qed.

(** A call that holds no task promise moves on. *)
Lemma inv_set_call s c a :
  invariant s ->
  (forall m id, calls s !! c <> Some (AwaitTask m id)) ->
  (forall m id, a <> AwaitTask m id) ->
  (owns (calls s !! c) -> owns (Some a)) ->
  invariant (set_call c a s).
Proof.
  intros Hi Hc Ha Ho. open_inv Hi. split; hist; try done.
  - intros t Ht. destruct (I_owner t Ht) as [H1 H2].
    split; [|done]. rewrite lookup_insert_ne; [done|]. intros E; subst. by eapply Hc.
  - intros c' m' id'. rewrite lookup_insert.
    case_decide; [intros [= ->]; by edestruct Ha|]. apply I_registered.
  - intros id' c' H. destruct (I_inflight _ _ H) as [m' Hm].
    exists m'. rewrite lookup_insert_ne; [done|]. intros E; subst. by eapply Hc.
  - intros c' r H. rewrite lookup_insert.
    case_decide; [subst|by eapply I_promise].
    apply Ho. by eapply I_promise.
  - intros t Ht. rewrite lookup_insert.
    case_decide as Heq; [|by apply I_enqueued].
    apply Ho. rewrite Heq. by apply I_enqueued.
Qed.

Lemma finished_in_snoc (h : list (N * mark)) x t r :
  (exists time, (time, Finished t r) ∈ h ++ [x]) ->
  (exists time, (time, Finished t r) ∈ h) \/ x.2 = Finished t r.
Proof.
  intros [time H]. apply elem_of_app in H as [H | H]; [left; by eexists|].
  apply list_elem_of_singleton in H. right. by subst.
Qed.

Lemma inv_note s k :
  invariant s ->
  match k with
  | Enqueued _ | Started _ | Finished _ _ => False
  | _ => True
  end ->
  invariant (note k s).
Proof.
  intros Hi Hk. open_inv Hi. split; hist; try done;
    try (destruct k; try done; hist; done).
  - intros t v H Hv. apply I_kept; [|done].
    apply finished_in_snoc in H as [H | H]; [done|]. by destruct k.
  - intros t r H. apply I_settled.
    apply finished_in_snoc in H as [H | H]; [done|]. by destruct k.
  - rewrite I_replay. by destruct k, (current s).
Qed.

Lemma inv_send_fallback s c r :
  invariant s -> invariant (send (ByFallback c) r s).
Proof. intros Hi. open_inv Hi. split; hist; done. Qed.

Lemma inv_set_storage s st : invariant s -> invariant (set_storage st s).
Proof. intros Hi. open_inv Hi. split; hist; done. Qed.

Lemma inv_set_document s d : invariant s -> invariant (set_document d s).
Proof. intros Hi. open_inv Hi. split; hist; done. Qed.

Lemma inv_advance s ms : invariant s -> invariant (advance ms s).
Proof. intros Hi. open_inv Hi. split; hist; done. Qed.


Lemma getCachedSummary_some (cache : table) (id v : jsstring) :
  cache !! id = Some v -> v <> [] -> getCachedSummary cache id = Some v.
Proof.
  intros H Hv. unfold getCachedSummary.
  destruct (cache !! id) as [w|]; [|done].
  injection H as ->. by destruct v.
Qed.


Lemma running_current s r :
  current s = Some r -> running s = [task_of r].
Proof. unfold running. by intros ->. Qed.

Lemma distinct_ids s t1 t2 :
  invariant s -> t1 ∈ running s -> t2 ∈ summaryQueue s ->
  task_id t1 <> task_id t2.
Proof.
  intros Hi H1 H2 Heq.
  assert (task_owner t1 = task_owner t2) as Ho.
  { assert (t1 ∈ outstanding s) as Ho1 by (apply elem_of_app; auto).
    assert (t2 ∈ outstanding s) as Ho2 by (apply elem_of_app; auto).
    apply (outstanding_registered s _ Hi) in Ho1, Ho2. congruence. }
  pose proof (inv_nodup s Hi) as Hn. unfold outstanding in Hn.
  rewrite fmap_app in Hn. apply NoDup_app in Hn as (_ & Hn & _).
  apply (Hn (task_owner t1)); [by apply list_elem_of_fmap_2|].
  rewrite Ho. by apply list_elem_of_fmap_2.
Qed.

Lemma inv_backend_ok s t summary :
  invariant s -> current s = Some (AwaitBackend t) ->
  invariant
    (set_current (Some (AwaitStorageGet t summary))
       (set_summaryCache (<[task_id t := summary]> (summaryCache s)) s)).
Proof.
  intros Hi Hc. open_inv Hi.
  split; hist; rewrite ?Hc in *; simpl in *; try done.
  - split; [by eexists|]. intros _. apply I_flag. by eexists.
  - intros t' [Ht' | Ht']; [|done].
    unfold getCachedSummary. rewrite lookup_insert_ne.
    { by apply I_miss; left. }
    apply (distinct_ids s); [done| |done].
    rewrite (running_current _ _ Hc). by apply list_elem_of_singleton.
  - intros t' v [[= -> ->] | [raw [=]]]. apply lookup_insert_eq.
  - intros t' v Ht' Hv. specialize (I_kept t' v Ht' Hv).
    rewrite lookup_insert_ne; [done|]. intros Heq.
    specialize (I_miss t (or_intror eq_refl)).
    rewrite Heq, (getCachedSummary_some _ _ v) in I_miss; done.
Qed.

Lemma inv_storage_get_ok s t summary raw :
  invariant s -> current s = Some (AwaitStorageGet t summary) ->
  invariant (set_current (Some (AwaitStorageSet t summary raw)) s).
Proof.
  intros Hi Hc. open_inv Hi.
  split; hist; rewrite ?Hc in *; simpl in *; try done.
  - split; [by eexists|]. intros _. apply I_flag. by eexists.
  - intros t' [Ht' | Ht']; [|done]. by apply I_miss; left.
  - intros t' v [[=] | [raw' [= -> -> _]]]. apply I_written. by left.
Qed.


Lemma kept_snoc (h : list (N * mark)) now t o t' v :
  (exists time, (time, Finished t' (Fulfilled v)) ∈ h ++ [(now, Finished t o)]) ->
  (exists time, (time, Finished t' (Fulfilled v)) ∈ h)
  \/ (t' = t /\ o = Fulfilled v).
Proof.
  intros [time H]. apply elem_of_app in H as [H | H]; [left; by eexists|].
  apply list_elem_of_singleton in H. right. by injection H as _ -> ->.
Qed.

(** The task being processed settles and the runner moves on. *)
Lemma inv_finishTask s r o :
  invariant s -> current s = Some r ->
  (forall v, o = Fulfilled v -> v <> [] ->
             summaryCache s !! task_id (task_of r) = Some v) ->
  invariant (finishTask (task_of r) o s).
Proof.
  intros Hi Hc Ho. open_inv Hi.
  set (t := task_of r) in *.
  assert (Hrun : running s = [t]) by by apply running_current.
  assert (Hown : calls s !! task_owner t
                 = Some (AwaitTask (task_email t) (task_id t))
                 /\ promises s !! task_owner t = None).
  { apply I_owner. unfold outstanding. rewrite Hrun. set_solver. }
  destruct Hown as [Hown Hpending].
  assert (Hsettled : forall t0 r0,
    (exists time, (time, Finished t0 r0)
       ∈ history s ++ [(now s, Finished t o)]) ->
    <[task_owner t := o]> (promises s) !! task_owner t0 = Some r0).
  { intros t0 r0 H. apply finished_in_snoc in H as [H | [= -> ->]].
    - specialize (I_settled _ _ H). rewrite lookup_insert_ne; [done|].
      intros Heq. congruence.
    - apply lookup_insert_eq. }
  assert (Hpromise : forall c r0,
    <[task_owner t := o]> (promises s) !! c = Some r0 -> owns (calls s !! c)).
  { intros c r0. rewrite lookup_insert.
    case_decide; [subst|by apply I_promise]. intros _. by rewrite Hown. }
  assert (Hkept : forall t0 v,
    (exists time, (time, Finished t0 (Fulfilled v))
       ∈ history s ++ [(now s, Finished t o)]) ->
    v <> [] -> summaryCache s !! task_id t0 = Some v).
  { intros t0 v H Hv. apply kept_snoc in H as [H | [-> ->]]; eauto. }
  unfold finishTask, processSummaryQueue. simpl.
  unfold outstanding in *. rewrite Hrun in *. clear Hrun.
  rewrite Hc in I_replay. simpl in I_replay. fold t in I_replay.
  destruct (summaryQueue s) as [|t' rest] eqn:Hq; simpl.
  - split; simpl; unfold replay, running, outstanding, sent_by_tasks,
      enqueued, started, finished in *; simpl;
      rewrite ?Hq, ?omap_app, ?fold_left_app, ?app_nil_r in *; simpl;
      rewrite ?app_nil_r, ?I_replay; try done.
    + intros t0 H. by apply elem_of_nil in H.
    + constructor.
    + intros t0 [H | H]; [|done]. by apply elem_of_nil in H.
    + intros t0 v [H | [raw H]]; done.
  - split; simpl; unfold replay, running, outstanding, sent_by_tasks,
      enqueued, started, finished in *; simpl;
      rewrite ?Hq, ?omap_app, ?fold_left_app, ?app_nil_r in *; simpl;
      rewrite ?app_nil_r, ?I_replay; try done.
    + rewrite I_fifo. by rewrite <- app_assoc.
    + by rewrite I_serial.
    + by rewrite I_sent.
    + intros t0 Ht0.
      assert (t0 ∈ [t] ++ t' :: rest) as Hin by set_solver.
      destruct (I_owner t0 Hin) as [H1 H2]. split; [done|].
      rewrite lookup_insert_ne; [done|].
      change (NoDup (task_owner t :: (task_owner <$> t' :: rest)))
        in I_nodup.
      apply NoDup_cons in I_nodup as [Hn _].
      intros Heq. apply Hn. rewrite Heq.
      apply list_elem_of_fmap_2. set_solver.
    + change (NoDup (task_owner t :: (task_owner <$> t' :: rest)))
        in I_nodup.
      by apply NoDup_cons in I_nodup as [_ Hn].
    + intros t0 [H | [= <-]]; apply I_miss; left; set_solver.
    + intros t0 v [H | [raw H]]; done.
    + intros t0 v [time H] Hv. apply Hkept; [|done]. exists time.
      apply elem_of_app in H as [H | H]; [done|].
      by apply list_elem_of_singleton in H.
    + intros t0 r0 [time H]. apply Hsettled. exists time.
      apply elem_of_app in H as [H | H]; [done|].
      by apply list_elem_of_singleton in H.
Qed.

Lemma fallBack_send s c m :
  fallBack c m s
  = send (ByFallback c) (summary_request (apiKey s) m)
      (set_call c (AwaitFallback m) s).
Proof. reflexivity. Qed.

(** The owner of a settled task promise leaves the [try] block. *)
Lemma inv_release s c m id r a :
  invariant s ->
  calls s !! c = Some (AwaitTask m id) ->
  promises s !! c = Some r ->
  (forall m' id', a <> AwaitTask m' id') ->
  owns (Some a) ->
  invariant
    (set_call c a
       (set_inFlightSummaries (delete id (inFlightSummaries s)) s)).
Proof.
  intros Hi Hc Hp Ha Ho. open_inv Hi.
  pose proof (outstanding_unsettled s c r Hi Hp) as Hout.
  split; simpl; unfold running, outstanding, sent_by_tasks in *; simpl;
    try done.
  - intros t Ht. destruct (I_owner t Ht) as [H1 H2]. split; [|done].
    rewrite lookup_insert_ne; [done|]. intros Heq. by eapply Hout.
  - intros c' m' id'. rewrite lookup_insert.
    case_decide; [intros [= ->]; by edestruct Ha|].
    intros H'. rewrite lookup_delete_ne; [by eapply I_registered|].
    intros <-. pose proof (I_registered _ _ _ Hc).
    pose proof (I_registered _ _ _ H'). congruence.
  - intros id' c'. rewrite lookup_delete. case_decide; [done|].
    intros H'. destruct (I_inflight _ _ H') as [m' Hm].
    exists m'. rewrite lookup_insert_ne; [done|].
    intros <-. congruence.
  - intros c' r'. rewrite lookup_insert.
    case_decide; [done|apply I_promise].
  - intros t Ht. rewrite lookup_insert.
    case_decide; [done|by apply I_enqueued].
Qed.

Lemma inv_answer s c r :
  invariant s ->
  (forall m id, calls s !! c <> Some (AwaitTask m id)) ->
  invariant (answer c r s).
Proof.
  intros Hi Hc. unfold answer. apply inv_note; [|done].
  by apply inv_set_call.
Qed.

Lemma inv_fallBack s c m :
  invariant s ->
  (forall m id, calls s !! c <> Some (AwaitTask m id)) ->
  invariant (fallBack c m s).
Proof.
  intros Hi Hc. rewrite fallBack_send. apply inv_send_fallback.
  by apply inv_set_call.
Qed.

(** The wrapper goes on with its key. *)
Lemma inv_withId s c m id :
  invariant s -> calls s !! c = Some (AwaitId m id) ->
  invariant (withId c m id s).
Proof.
  intros Hi Hc. unfold withId.
  assert (Hnt : forall m' id', calls s !! c <> Some (AwaitTask m' id'))
    by (intros ??; congruence).
  destruct (getCachedSummary (summaryCache s) id) as [cached|] eqn:Hg.
  { apply inv_answer; [|done]. by apply inv_note. }
  destruct (inFlightSummaries s !! id) as [p|] eqn:Hf.
  { apply inv_set_call; [by apply inv_note|done|done|].
    simpl. by rewrite Hc. }
  open_inv Hi.
  assert (Hfresh : forall t, t ∈ outstanding s -> task_owner t <> c).
  { intros t Ht Heq. destruct (I_owner t Ht) as [H1 _]. congruence. }
  assert (Hpc : promises s !! c = None).
  { destruct (promises s !! c) eqn:Hp; [|done].
    apply I_promise in Hp. by rewrite Hc in Hp. }
  assert (Hnever : forall t, t ∈ enqueued (history s) -> task_owner t <> c).
  { intros t Ht Heq. apply I_enqueued in Ht. by rewrite Heq, Hc in Ht. }
  assert (Henq : forall t,
    t ∈ enqueued (history s)
        ++ [{| task_id := id; task_owner := c; task_email := m |}] ->
    owns (<[c := AwaitTask m id]> (calls s) !! task_owner t)).
  { intros t Ht. apply elem_of_app in Ht as [Ht | Ht].
    - rewrite lookup_insert_ne; [by apply I_enqueued|].
      intros Heq. by eapply Hnever.
    - apply list_elem_of_singleton in Ht as ->. simpl.
      by rewrite lookup_insert_eq. }
  assert (Honce : NoDup (task_owner <$> enqueued (history s)
        ++ [{| task_id := id; task_owner := c; task_email := m |}])).
  { rewrite fmap_app. apply NoDup_app. split; [done|].
    split; [|apply NoDup_singleton].
    intros o Ho Ho'. apply list_elem_of_singleton in Ho' as ->.
    apply list_elem_of_fmap in Ho as (t & Heq & Ht). by eapply Hnever. }
  unfold enqueueSummaryTask, processSummaryQueue. simpl.
  destruct (isProcessingSummaryQueue s) eqn:Hflag.
  - assert (Hcur : is_Some (current s)) by by apply I_flag.
    split; simpl; unfold running, outstanding, sent_by_tasks,
      enqueued, started, finished in *; simpl;
      rewrite ?Hflag, ?omap_app, ?app_nil_r in *; simpl;
      rewrite ?app_nil_r; try done.
    + intros Hn. rewrite Hn in Hcur. by destruct Hcur.
    + rewrite I_fifo. by rewrite <- app_assoc.
    + intros t Ht. rewrite app_assoc in Ht.
      apply elem_of_app in Ht as [Ht | Ht].
      * destruct (I_owner t Ht) as [H1 H2]. split; [|done].
        rewrite lookup_insert_ne; [done|]. intros Heq. by eapply Hfresh.
      * apply list_elem_of_singleton in Ht as ->. simpl.
        by rewrite lookup_insert_eq.
    + rewrite app_assoc, fmap_app. apply NoDup_app. split; [done|].
      split; [|apply NoDup_singleton].
      intros o Ho Ho'. apply list_elem_of_singleton in Ho' as ->.
      apply list_elem_of_fmap in Ho as (t & Heq & Ht). by eapply Hfresh.
    + intros c' m' id'. rewrite lookup_insert.
      case_decide; [intros [= -> ->]; subst; by rewrite lookup_insert_eq|].
      intros H'. pose proof (I_registered _ _ _ H') as Hr.
      rewrite lookup_insert_ne; [done|]. intros <-. congruence.
    + intros id' c'. rewrite lookup_insert.
      case_decide; [intros [= <-]; subst; exists m; by rewrite lookup_insert_eq|].
      intros H'. destruct (I_inflight _ _ H') as [m' Hm].
      exists m'. rewrite lookup_insert_ne; [done|]. intros <-. congruence.
    + intros c' r. rewrite lookup_insert.
      case_decide; [done|apply I_promise].
    + intros t [Ht | Ht]; [|by apply I_miss; right].
      apply elem_of_app in Ht as [Ht | Ht]; [by apply I_miss; left|].
      by apply list_elem_of_singleton in Ht as ->.
    + intros t v H Hv. apply finished_in_snoc in H as [H | H]; [eauto|done].
    + intros t r H. apply finished_in_snoc in H as [H | H]; [eauto|done].
    + unfold replay in *. rewrite fold_left_app, I_replay. simpl.
      by destruct (current s).
  - assert (Hcur : current s = None).
    { destruct (current s) eqn:Hcur; [|done].
      assert (is_Some (Some r)) as Hs by by eexists.
      apply I_flag in Hs. congruence. }
    pose proof (I_idle Hcur) as Hq.
    rewrite Hq. simpl.
    split; simpl; unfold running, outstanding, sent_by_tasks,
      enqueued, started, finished in *; simpl;
      rewrite ?Hflag, ?Hcur, ?Hq, ?omap_app, ?app_nil_r in *; simpl in *;
      rewrite ?app_nil_r; try done.
    + by rewrite I_fifo.
    + by rewrite I_serial.
    + by rewrite I_sent.
    + intros t Ht. apply list_elem_of_singleton in Ht as ->. simpl.
      by rewrite lookup_insert_eq.
    + apply NoDup_singleton.
    + intros c' m' id'. rewrite lookup_insert.
      case_decide; [intros [= -> ->]; subst; by rewrite lookup_insert_eq|].
      intros H'. pose proof (I_registered _ _ _ H') as Hr.
      rewrite lookup_insert_ne; [done|]. intros <-. congruence.
    + intros id' c'. rewrite lookup_insert.
      case_decide; [intros [= <-]; subst; exists m; by rewrite lookup_insert_eq|].
      intros H'. destruct (I_inflight _ _ H') as [m' Hm].
      exists m'. rewrite lookup_insert_ne; [done|]. intros <-. congruence.
    + intros c' r. rewrite lookup_insert.
      case_decide; [done|apply I_promise].
    + intros t [Ht | [= <-]]; [by apply elem_of_nil in Ht|done].
    + intros t v [[=] | [raw [=]]].
    + intros t v [time H] Hv. rewrite <- app_assoc in H.
      apply elem_of_app in H as [H | H]; [eauto|].
      apply elem_of_cons in H as [H | H]; [done|].
      by apply list_elem_of_singleton in H.
    + intros t r [time H]. rewrite <- app_assoc in H.
      apply elem_of_app in H as [H | H]; [eauto|].
      apply elem_of_cons in H as [H | H]; [done|].
      by apply list_elem_of_singleton in H.
    + unfold replay in *. by rewrite !fold_left_app, I_replay.
Qed.

Lemma invariant_step s e s' :
  invariant s -> step s e = Some s' -> invariant s'.
Proof.
  intros Hi Hs. destruct e as [c m|c|o|ok|ok|c|c o|d|ms]; simpl in Hs.
  - destruct (calls s !! c) eqn:Hc; [done|]. injection Hs as <-.
    unfold invoke. apply inv_set_call; try done.
    + intros ??. by rewrite Hc.
    + by rewrite Hc.
  - destruct (calls s !! c) as [[m id| | | |]|] eqn:Hc; try done.
    injection Hs as <-. by apply inv_withId.
  - destruct (current s) as [[t| |]|] eqn:Hc; try done.
    destruct (callGeminiAPI_settled o) as [summary|err];
      injection Hs as <-.
    + by apply inv_backend_ok.
    + by apply (inv_finishTask s (AwaitBackend t)).
  - destruct (current s) as [[|t summary|]|] eqn:Hc; try done.
    destruct ok; injection Hs as <-.
    + by apply inv_storage_get_ok.
    + apply (inv_finishTask s (AwaitStorageGet t summary)); [done..|].
      intros v [= <-] _. apply (inv_written s Hi). by left.
  - destruct (current s) as [[| |t summary raw]|] eqn:Hc; try done.
    injection Hs as <-.
    assert (Hw : summaryCache s !! task_id t = Some summary).
    { apply (inv_written s Hi). right. by eexists. }
    destruct ok.
    + apply (inv_finishTask _ (AwaitStorageSet t summary raw));
        [by apply inv_set_storage|done|].
      by intros v [= <-] _.
    + apply (inv_finishTask _ (AwaitStorageSet t summary raw)); [done..|].
      by intros v [= <-] _.
  - destruct (calls s !! c) as [[|m p|m id| |]|] eqn:Hc; try done.
    + assert (forall m id, calls s !! c <> Some (AwaitTask m id))
        by (intros ??; congruence).
      destruct (promises s !! p) as [[v|err]|]; try done;
        injection Hs as <-.
      * by apply inv_answer.
      * by apply inv_fallBack.
    + destruct (promises s !! c) as [r|] eqn:Hp; [|done].
      destruct r as [v|err]; injection Hs as <-.
      * unfold answer. apply inv_note; [|done].
        by eapply inv_release.
      * rewrite fallBack_send. apply inv_send_fallback.
        by eapply inv_release.
  - destruct (calls s !! c) as [[| | |m|]|] eqn:Hc; try done.
    injection Hs as <-. apply inv_answer; [done|]. intros ??; congruence.
  - injection Hs as <-. by apply inv_set_document.
  - injection Hs as <-. by apply inv_advance.
Qed.

Theorem reachable_invariant s : reachable s -> invariant s.
Proof.
  induction 1 as [key d slot readable|s e s' _ IH Hs].
  - apply inv_init.
  - by eapply invariant_step.
Qed.

End Preservation.

(** ** How a step changes the cache and the promises *)

Section Frames.

Implicit Types (s : state) (c : caller) (m : email) (t : task).

Lemma processSummaryQueue_frame s :
  summaryCache (processSummaryQueue s) = summaryCache s
  /\ promises (processSummaryQueue s) = promises s
  /\ calls (processSummaryQueue s) = calls s
  /\ inFlightSummaries (processSummaryQueue s) = inFlightSummaries s
  /\ storage (processSummaryQueue s) = storage s.
Proof.
  unfold processSummaryQueue.
  by destruct (isProcessingSummaryQueue s), (summaryQueue s).
Qed.

Lemma finishTask_frame t o s :
  summaryCache (finishTask t o s) = summaryCache s
  /\ promises (finishTask t o s) = <[task_owner t := o]> (promises s)
  /\ calls (finishTask t o s) = calls s
  /\ inFlightSummaries (finishTask t o s) = inFlightSummaries s
  /\ storage (finishTask t o s) = storage s.
Proof.
  unfold finishTask, processSummaryQueue. simpl.
  by destruct (summaryQueue s).
Qed.

Lemma withId_frame c m id s :
  summaryCache (withId c m id s) = summaryCache s
  /\ promises (withId c m id s) = promises s
  /\ storage (withId c m id s) = storage s.
Proof.
  unfold withId, enqueueSummaryTask, processSummaryQueue. simpl.
  destruct (getCachedSummary _ _); [done|].
  destruct (inFlightSummaries s !! id); [done|].
  destruct (isProcessingSummaryQueue s); [done|].
  by destruct (summaryQueue s).
Qed.

(** A non-empty cached summary is never replaced. *)
Lemma cache_stable s e s' k v :
  invariant s -> step s e = Some s' ->
  v <> [] -> summaryCache s !! k = Some v -> summaryCache s' !! k = Some v.
Proof.
  intros Hi Hs Hv Hk.
  destruct e as [c m|c|o|ok|ok|c|c o|d|ms]; simpl in Hs.
  - destruct (calls s !! c); [done|]. by injection Hs as <-.
  - destruct (calls s !! c) as [[m id| | | |]|]; try done.
    injection Hs as <-. by rewrite (proj1 (withId_frame _ _ _ _)).
  - destruct (current s) as [[t| |]|] eqn:Hc; try done.
    destruct (callGeminiAPI_settled o) as [summary|err];
      injection Hs as <-.
    + simpl. rewrite lookup_insert_ne; [done|]. intros Heq.
      pose proof (inv_miss s Hi t (or_intror Hc)) as Hmiss.
      rewrite Heq, (getCachedSummary_some _ _ v) in Hmiss; done.
    + by rewrite (proj1 (finishTask_frame _ _ _)).
  - destruct (current s) as [[|t summary|]|]; try done.
    destruct ok; injection Hs as <-; [done|].
    by rewrite (proj1 (finishTask_frame _ _ _)).
  - destruct (current s) as [[| |t summary raw]|]; try done.
    injection Hs as <-. rewrite (proj1 (finishTask_frame _ _ _)).
    by destruct ok.
  - destruct (calls s !! c) as [[|m p|m id| |]|]; try done.
    + destruct (promises s !! p) as [[w|err]|]; try done;
        by injection Hs as <-.
    + destruct (promises s !! c) as [[w|err]|]; try done;
        by injection Hs as <-.
  - destruct (calls s !! c) as [[| | |m|]|]; try done.
    by injection Hs as <-.
  - by injection Hs as <-.
  - by injection Hs as <-.
Qed.

(** A settled promise keeps its outcome. *)
Lemma promise_stable s e s' p r :
  invariant s -> step s e = Some s' ->
  promises s !! p = Some r -> promises s' !! p = Some r.
Proof.
  intros Hi Hs Hp.
  assert (Hfin : forall rp o, current s = Some rp ->
    promises (finishTask (task_of rp) o s) !! p = Some r).
  { intros rp o Hc. rewrite (proj1 (proj2 (finishTask_frame _ _ _))).
    rewrite lookup_insert_ne; [done|]. intros <-.
    assert (task_of rp ∈ outstanding s) as Hin.
    { unfold outstanding, running. rewrite Hc. set_solver. }
    destruct (inv_owner s Hi _ Hin) as [_ Hn]. congruence. }
  destruct e as [c m|c|o|ok|ok|c|c o|d|ms]; simpl in Hs.
  - destruct (calls s !! c); [done|]. by injection Hs as <-.
  - destruct (calls s !! c) as [[m id| | | |]|]; try done.
    injection Hs as <-. by rewrite (proj1 (proj2 (withId_frame _ _ _ _))).
  - destruct (current s) as [[t| |]|] eqn:Hc; try done.
    destruct (callGeminiAPI_settled o) as [summary|err];
      injection Hs as <-; [done|].
    by apply (Hfin (AwaitBackend t)).
  - destruct (current s) as [[|t summary|]|] eqn:Hc; try done.
    destruct ok; injection Hs as <-; [done|].
    by apply (Hfin (AwaitStorageGet t summary)).
  - destruct (current s) as [[| |t summary raw]|] eqn:Hc; try done.
    injection Hs as <-.
    rewrite (proj1 (proj2 (finishTask_frame _ _ _))).
    specialize (Hfin (AwaitStorageSet t summary raw) (Fulfilled summary) eq_refl).
    rewrite (proj1 (proj2 (finishTask_frame _ _ _))) in Hfin.
    by destruct ok.
  - destruct (calls s !! c) as [[|m q|m id| |]|]; try done.
    + destruct (promises s !! q) as [[w|err]|]; try done;
        by injection Hs as <-.
    + destruct (promises s !! c) as [[w|err]|]; try done;
        by injection Hs as <-.
  - destruct (calls s !! c) as [[| | |m|]|]; try done.
    by injection Hs as <-.
  - by injection Hs as <-.
  - by injection Hs as <-.
Qed.

Lemma run_snoc s es e :
  run s (es ++ [e]) = default (run s es) (step (run s es) e).
Proof. unfold run. by rewrite fold_left_app. Qed.

Lemma reachable_run s es : reachable s -> reachable (run s es).
Proof.
  intros Hr. induction es as [|e es IH] using rev_ind; [done|].
  rewrite run_snoc. destruct (step (run s es) e) eqn:Hs; [|done].
  by eapply reachable_step.
Qed.

Lemma cache_stable_run s es k v :
  reachable s -> v <> [] ->
  summaryCache s !! k = Some v -> summaryCache (run s es) !! k = Some v.
Proof.
  intros Hr Hv Hk. induction es as [|e es IH] using rev_ind; [done|].
  rewrite run_snoc. destruct (step (run s es) e) eqn:Hs; [|done].
  simpl. eapply cache_stable; eauto.
  apply reachable_invariant. by apply reachable_run.
Qed.

End Frames.

(** ** The cache in front of the queue *)

Section CacheHit.

Implicit Types (s : state) (c : caller) (m : email) (k v : jsstring).

Lemma step_hit s c m k v :
  calls s !! c = Some (AwaitId m k) ->
  summaryCache s !! k = Some v -> v <> [] ->
  step s (IdReady c)
  = Some (answer c (Fulfilled v) (note (CacheHit c v) s)).
Proof.
  intros Hc Hk Hv. simpl. rewrite Hc. unfold withId.
  by rewrite (getCachedSummary_some _ _ v).
Qed.


(** What [IdReady] does to the call it resumes. *)
Lemma withId_call c m k s :
  calls (withId c m k s) !! c
  = match getCachedSummary (summaryCache s) k with
    | Some cached => Some (Settled (Fulfilled cached))
    | None =>
        match inFlightSummaries s !! k with
        | Some p => Some (AwaitInFlight m p)
        | None => Some (AwaitTask m k)
        end
    end.
Proof.
  unfold withId.
  destruct (getCachedSummary _ _); [apply lookup_insert_eq|].
  destruct (inFlightSummaries s !! k); apply lookup_insert_eq.
Qed.


End CacheHit.

(** ** Every task enqueued gets its backend request *)

Section Requests.

Implicit Types (s : state) (c : caller) (m : email) (t : task).





Lemma withId_calls_other c c' m k s :
  c <> c' -> calls (withId c' m k s) !! c = calls s !! c.
Proof.
  intros Hne. unfold withId.
  destruct (getCachedSummary _ _); simpl;
    [by rewrite lookup_insert_ne|].
  destruct (inFlightSummaries s !! k); simpl;
    [by rewrite lookup_insert_ne|].
  rewrite lookup_insert_ne by done.
  unfold enqueueSummaryTask.
  by rewrite (proj1 (proj2 (proj2 (processSummaryQueue_frame _)))).
Qed.






(** The request of a task is the one built from its e-mail. *)
Lemma sent_by_tasks_request s :
  reachable s ->
  forall t, t ∈ sent_by_tasks s ->
            (ByTask t, summary_request (apiKey s) (task_email t)) ∈ sent s.
Proof.
  induction 1 as [key d slot readable|s e s' Hr IH Hs].
  { intros t Hin. by apply elem_of_nil in Hin. }
  assert (Hprocess : forall s0,
    (forall t, t ∈ sent_by_tasks s0 ->
       (ByTask t, summary_request (apiKey s0) (task_email t)) ∈ sent s0) ->
    forall t, t ∈ sent_by_tasks (processSummaryQueue s0) ->
       (ByTask t, summary_request (apiKey (processSummaryQueue s0))
                    (task_email t)) ∈ sent (processSummaryQueue s0)).
  { intros s0 H0 t. unfold processSummaryQueue.
    destruct (isProcessingSummaryQueue s0); [apply H0|].
    destruct (summaryQueue s0) as [|t0 rest]; [apply H0|].
    unfold sent_by_tasks. simpl. rewrite omap_app. simpl.
    intros [Hin | ->%list_elem_of_singleton]%elem_of_app;
      apply elem_of_app; [left; by apply H0|right].
    by apply list_elem_of_singleton. }
  assert (Hfinish : forall t0 o s0,
    apiKey s0 = apiKey s -> sent s0 = sent s ->
    forall t, t ∈ sent_by_tasks (finishTask t0 o s0) ->
       (ByTask t, summary_request (apiKey (finishTask t0 o s0))
                    (task_email t)) ∈ sent (finishTask t0 o s0)).
  { intros t0 o s0 Hk Hsent. unfold finishTask.
    match goal with |- context [if ?b then _ else _] => destruct b end;
      [apply Hprocess|]; unfold sent_by_tasks; simpl; rewrite Hk, Hsent;
      apply IH. }
  assert (Hfall : forall c m s0,
    apiKey s0 = apiKey s -> sent s0 = sent s ->
    forall t, t ∈ sent_by_tasks (fallBack c m s0) ->
       (ByTask t, summary_request (apiKey (fallBack c m s0))
                    (task_email t)) ∈ sent (fallBack c m s0)).
  { intros c m s0 Hk Hsent t. unfold sent_by_tasks. simpl.
    rewrite Hk, Hsent, omap_app. simpl. rewrite app_nil_r.
    intros Hin. apply elem_of_app. left. by apply IH. }
  destruct e as [c m|c|o|ok|ok|c|c o|d|ms]; simpl in Hs.
  - destruct (calls s !! c); [done|]. injection Hs as <-. apply IH.
  - destruct (calls s !! c) as [[m id| | | |]|]; try done.
    injection Hs as <-. unfold withId.
    destruct (getCachedSummary _ _); [apply IH|].
    destruct (inFlightSummaries s !! id); [apply IH|].
    unfold enqueueSummaryTask. apply Hprocess. apply IH.
  - destruct (current s) as [[t0| |]|]; try done.
    destruct (callGeminiAPI_settled o); injection Hs as <-;
      [apply IH|by apply Hfinish].
  - destruct (current s) as [[|t0 v|]|]; try done.
    destruct ok; injection Hs as <-; [apply IH|by apply Hfinish].
  - destruct (current s) as [[| |t0 v raw]|]; try done.
    injection Hs as <-. destruct ok; by apply Hfinish.
  - destruct (calls s !! c) as [[|m p|m id| |]|]; try done.
    + destruct (promises s !! p) as [[v|err]|]; try done;
        injection Hs as <-; [apply IH|by apply Hfall].
    + destruct (promises s !! c) as [[v|err]|]; try done;
        injection Hs as <-; [apply IH|by apply Hfall].
  - destruct (calls s !! c) as [[| | |m|]|]; try done.
    injection Hs as <-. apply IH.
  - injection Hs as <-. apply IH.
  - injection Hs as <-. apply IH.
Qed.




End Requests.






(** ** Storage failures *)


Section StorageFailure.

Implicit Types (s : state) (t : task) (v : jsstring).



End StorageFailure.



(** ** Single flight *)

Section SingleFlight.

Implicit Types (s : state) (c p : caller) (m : email) (k v : jsstring).

Lemma NoDup_fmap_via {A B C} (f : A -> B) (g : A -> C) (l : list A) :
  (forall x y, x ∈ l -> y ∈ l -> f x = f y -> g x = g y) ->
  NoDup (g <$> l) -> NoDup (f <$> l).
Proof.
  induction l as [|a l IH]; intros Hfg Hn; [constructor|].
  rewrite fmap_cons in *. apply NoDup_cons in Hn as [Ha Hn].
  apply NoDup_cons. split.
  - intros Hin. apply Ha. apply list_elem_of_fmap in Hin as (y & Hy & Hin).
    rewrite (Hfg a y); [by apply list_elem_of_fmap_2|set_solver..|done].
  - apply IH; [|done]. intros x y Hx Hy. apply Hfg; set_solver.
Qed.

Lemma outstanding_ids_distinct s :
  invariant s -> NoDup (task_id <$> outstanding s).
Proof.
  intros Hi. apply (NoDup_fmap_via _ task_owner); [|by apply inv_nodup].
  intros x y Hx Hy Heq.
  apply (outstanding_registered s _ Hi) in Hx, Hy. congruence.
Qed.

Lemma started_once s :
  invariant s -> NoDup (task_owner <$> started (history s)).
Proof.
  intros Hi. pose proof (inv_once s Hi) as Hn.
  rewrite (inv_fifo s Hi), fmap_app in Hn.
  by apply NoDup_app in Hn as [Hn _].
Qed.

Lemma step_join s c m k p :
  calls s !! c = Some (AwaitId m k) ->
  getCachedSummary (summaryCache s) k = None ->
  inFlightSummaries s !! k = Some p ->
  step s (IdReady c)
  = Some (set_call c (AwaitInFlight m p) (note (Joined c p) s)).
Proof.
  intros Hc Hg Hf. simpl. rewrite Hc. unfold withId. by rewrite Hg, Hf.
Qed.

Lemma resume_fulfilled s c m p v :
  awaits s c m p -> promises s !! p = Some (Fulfilled v) ->
  exists s',
    step s (Resume c) = Some s'
    /\ calls s' !! c = Some (Settled (Fulfilled v))
    /\ sent s' = sent s.
Proof.
  intros [Hc | [-> [k Hc]]] Hp; eexists; simpl; rewrite Hc, Hp;
    (split; [done|]); simpl; by rewrite lookup_insert_eq.
Qed.

Lemma resume_rejected s c m p err :
  awaits s c m p -> promises s !! p = Some (Rejected err) ->
  exists s',
    step s (Resume c) = Some s'
    /\ calls s' !! c = Some (AwaitFallback m)
    /\ sent s' = sent s ++ [(ByFallback c, summary_request (apiKey s) m)].
Proof.
  intros [Hc | [-> [k Hc]]] Hp; eexists; simpl; rewrite Hc, Hp;
    (split; [done|]); simpl; by rewrite lookup_insert_eq.
Qed.

Lemma resume_releases s c m k r :
  calls s !! c = Some (AwaitTask m k) -> promises s !! c = Some r ->
  exists s',
    step s (Resume c) = Some s' /\ inFlightSummaries s' !! k = None.
Proof.
  intros Hc Hp. simpl. rewrite Hc, Hp.
  destruct r; eexists; (split; [done|]); simpl; apply lookup_delete_eq.
Qed.

End SingleFlight.

(** C1, refuted as stated: the second call is made while the first has
    not settled, and joins its task; the task fails, each of the two
    calls then calls the backend directly, so three requests are sent,
    and the two callers get different results. *)
Lemma C1_failed_task_is_retried_by_each_caller :
  let s := run fresh two_calls_task_fails in
  (0, Joined 1 0) ∈ history s
  /\ enqueued (history s) = [task_for 0 "k"]
  /\ length (sent s) = 3%nat
  /\ result s 0 = Some (Fulfilled (lit "Lunch at noon."))
  /\ result s 1 = Some (Fulfilled (lit "Dinner at eight."))
  /\ result s 0 <> result s 1.
Proof.
  vm_compute. repeat split; try reflexivity.
  - apply list_elem_of_In. simpl. auto 10.
  - discriminate.
Qed.

(** C1, amended: for every item key at most one task is outstanding at
    any time, and it is the one registered in flight.  A call that finds
    the key in flight awaits the registered promise instead of enqueueing
    a task, and sends nothing.  The registration is removed when the
    owner of the task resumes on the settled promise, whether fulfilled
    or rejected.  Every task sends exactly one request and its promise
    settles once; if it is fulfilled, every call awaiting it gets the same
    summary and no other request is sent.  If it is rejected, every call
    awaiting it calls the backend directly, on its own. *)
Theorem C1_single_flight (s : state) :
  reachable s ->
  NoDup (task_id <$> outstanding s)
  /\ (forall t, t ∈ outstanding s ->
        inFlightSummaries s !! task_id t = Some (task_owner t))
  /\ (forall k p, inFlightSummaries s !! k = Some p ->
        exists m, calls s !! p = Some (AwaitTask m k))
  /\ (forall c m k p,
        calls s !! c = Some (AwaitId m k) ->
        getCachedSummary (summaryCache s) k = None ->
        inFlightSummaries s !! k = Some p ->
        exists s',
          step s (IdReady c) = Some s'
          /\ calls s' !! c = Some (AwaitInFlight m p)
          /\ summaryQueue s' = summaryQueue s
          /\ current s' = current s
          /\ sent s' = sent s)
  /\ (forall c m k r,
        calls s !! c = Some (AwaitTask m k) ->
        promises s !! c = Some r ->
        exists s',
          step s (Resume c) = Some s' /\ inFlightSummaries s' !! k = None)
  /\ (sent_by_tasks s = started (history s)
      /\ NoDup (task_owner <$> started (history s)))
  /\ (forall p r e s',
        promises s !! p = Some r -> step s e = Some s' ->
        promises s' !! p = Some r)
  /\ (forall c m p v,
        awaits s c m p -> promises s !! p = Some (Fulfilled v) ->
        exists s',
          step s (Resume c) = Some s'
          /\ calls s' !! c = Some (Settled (Fulfilled v))
          /\ sent s' = sent s)
  /\ (forall c m p err,
        awaits s c m p -> promises s !! p = Some (Rejected err) ->
        exists s',
          step s (Resume c) = Some s'
          /\ calls s' !! c = Some (AwaitFallback m)
          /\ sent s' = sent s ++ [(ByFallback c, summary_request (apiKey s) m)]).
Proof.
  intros Hr. pose proof (reachable_invariant s Hr) as Hi.
  repeat apply conj.
  - by apply outstanding_ids_distinct.
  - intros t. by apply outstanding_registered.
  - apply (inv_inflight s Hi).
  - intros c m k p Hc Hg Hf. eexists.
    split; [by apply (step_join s c m k p)|].
    simpl. by rewrite lookup_insert_eq.
  - intros c m k r. apply resume_releases.
  - apply (inv_sent s Hi).
  - by apply started_once.
  - intros p r e s' Hp Hs. by eapply promise_stable.
  - intros c m p v. apply resume_fulfilled.
  - intros c m p err. apply resume_rejected.
Qed.

Lemma C1_single_flight_witness :
  let s := run fresh (take 5 two_calls_task_succeeds) in
  NoDup (task_id <$> outstanding s)
  /\ (forall t, t ∈ outstanding s ->
        inFlightSummaries s !! task_id t = Some (task_owner t)).
Proof.
  intros s.
  pose proof (C1_single_flight s (reachable_run _ _ (reachable_init _ _ _ _)))
    as (H1 & H2 & _).
  exact (conj H1 H2).
Defined.

(** The two calls of the sample, the task succeeding: one request, one
    summary for both. *)
Example two_calls_share_one_request :
  let s := run fresh two_calls_task_succeeds in
  length (sent s) = 1%nat
  /\ result s 0 = Some (Fulfilled (lit "Lunch at noon."))
  /\ result s 1 = Some (Fulfilled (lit "Lunch at noon."))
  /\ inFlightSummaries s = ∅.
Proof. vm_compute. repeat split; reflexivity. Qed.

(** ** The queue *)

Section Queue.

Implicit Types (s : state) (t : task).

Lemma running_at_most_one s : (length (running s) <= 1)%nat.
Proof. unfold running. destruct (current s); simpl; lia. Qed.

Lemma step_task_fails s t o err :
  current s = Some (AwaitBackend t) ->
  callGeminiAPI_settled o = Rejected err ->
  step s (BackendDone o) = Some (finishTask t (Rejected err) s).
Proof. intros Hc Ho. simpl. by rewrite Hc, Ho. Qed.

Lemma finishTask_next s t r t' rest :
  summaryQueue s = t' :: rest ->
  let s' := finishTask t r s in
  current s' = Some (AwaitBackend t')
  /\ summaryQueue s' = rest
  /\ isProcessingSummaryQueue s' = true
  /\ sent s' = sent s ++ [(ByTask t', summary_request (apiKey s) (task_email t'))]
  /\ history s'
     = history s ++ [(now s, Finished t r); (now s, Started t')].
Proof.
  intros Hq. unfold finishTask, processSummaryQueue. simpl.
  rewrite Hq. simpl. by rewrite <- app_assoc.
Qed.

Lemma finishTask_last s t r :
  summaryQueue s = [] ->
  let s' := finishTask t r s in
  current s' = None
  /\ summaryQueue s' = []
  /\ isProcessingSummaryQueue s' = false
  /\ sent s' = sent s.
Proof.
  intros Hq. unfold finishTask, processSummaryQueue. simpl.
  by rewrite Hq.
Qed.

End Queue.

Section Enqueue.

Implicit Types (s : state) (t : task).

Lemma enqueueSummaryTask_enqueued t s :
  enqueued (history (enqueueSummaryTask t s)) = enqueued (history s) ++ [t].
Proof.
  unfold enqueueSummaryTask, processSummaryQueue, enqueued. simpl.
  destruct (isProcessingSummaryQueue s); simpl.
  { by rewrite omap_app. }
  destruct (summaryQueue s ++ [t]) eqn:Hq; simpl.
  { by rewrite omap_app. }
  rewrite !omap_app. simpl. by rewrite app_nil_r.
Qed.

Lemma enqueueSummaryTask_idle t s :
  isProcessingSummaryQueue s = false ->
  summaryQueue s = [] ->
  let s' := enqueueSummaryTask t s in
  current s' = Some (AwaitBackend t)
  /\ summaryQueue s' = []
  /\ sent s' = sent s ++ [(ByTask t, summary_request (apiKey s) (task_email t))]
  /\ started (history s') = started (history s) ++ [t].
Proof.
  intros Hflag Hq. unfold enqueueSummaryTask, processSummaryQueue. simpl.
  rewrite Hflag, Hq. simpl. repeat split; try done.
  unfold started. rewrite !omap_app. simpl. by rewrite app_nil_r.
Qed.

Lemma enqueueSummaryTask_busy t s :
  isProcessingSummaryQueue s = true ->
  let s' := enqueueSummaryTask t s in
  current s' = current s
  /\ summaryQueue s' = summaryQueue s ++ [t]
  /\ sent s' = sent s
  /\ started (history s') = started (history s).
Proof.
  intros Hflag. unfold enqueueSummaryTask, processSummaryQueue. simpl.
  rewrite Hflag. simpl. repeat split; try done.
  unfold started. rewrite omap_app. simpl. by rewrite app_nil_r.
Qed.

Lemma finishTask_marks t r s :
  finished (history (finishTask t r s)) = finished (history s) ++ [t]
  /\ started (history (finishTask t r s))
     = started (history s) ++ take 1 (summaryQueue s).
Proof.
  unfold finishTask, processSummaryQueue, finished, started. simpl.
  destruct (summaryQueue s) as [|t' rest]; simpl;
    rewrite !omap_app; simpl; by rewrite ?app_nil_r.
Qed.

End Enqueue.

(** C2: the tasks enqueued on the summary queue run one at a time in the
    order they were enqueued.  At every moment the tasks started are the
    first of the tasks enqueued, the rest waiting in the queue in order;
    all the tasks started have finished except the one being processed;
    in the history no task starts while another is open; the runner is
    idle only when the queue is empty.  Starting a task is calling its
    run function: the tasks that have sent their backend request, in
    the order of the requests, are the tasks started, and each request
    is the one built from the e-mail of its task.  A task handed to
    [enqueueSummaryTask] is recorded as enqueued after those before
    it; it is started at once, its request sent, when the runner is
    idle, and put at the end of the queue otherwise.  When the run
    function of a task settles, the promise of the task is settled with
    its outcome and the runner starts the next task of the queue, if
    any, sending its request.  In particular a task whose run function
    fails is reported to its caller by rejecting its promise and, in the
    same step, the runner starts the next task in the queue. *)
Theorem C2_queue_is_fifo_and_serial (s : state) :
  reachable s ->
  enqueued (history s) = started (history s) ++ summaryQueue s
  /\ started (history s) = finished (history s) ++ running s
  /\ (length (running s) <= 1)%nat
  /\ replay (history s) = Some (task_of <$> current s)
  /\ (current s = None -> summaryQueue s = [])
  /\ (isProcessingSummaryQueue s = true <-> is_Some (current s))
  /\ (forall t o err,
        current s = Some (AwaitBackend t) ->
        callGeminiAPI_settled o = Rejected err ->
        exists s',
          step s (BackendDone o) = Some s'
          /\ reachable s'
          /\ promises s' !! task_owner t = Some (Rejected err)
          /\ calls s' !! task_owner t
             = Some (AwaitTask (task_email t) (task_id t))
          /\ finished (history s') = finished (history s) ++ [t]
          /\ match summaryQueue s with
             | t' :: rest =>
                 current s' = Some (AwaitBackend t')
                 /\ summaryQueue s' = rest
                 /\ started (history s') = started (history s) ++ [t']
                 /\ sent s'
                    = sent s ++ [(ByTask t',
                                  summary_request (apiKey s) (task_email t'))]
             | [] =>
                 current s' = None /\ summaryQueue s' = []
                 /\ started (history s') = started (history s)
                 /\ sent s' = sent s
             end)
  /\ sent_by_tasks s = started (history s)
  /\ (forall t, t ∈ started (history s) ->
        (ByTask t, summary_request (apiKey s) (task_email t)) ∈ sent s)
  /\ (forall t,
        let s' := enqueueSummaryTask t s in
        enqueued (history s') = enqueued (history s) ++ [t]
        /\ (current s = None ->
            current s' = Some (AwaitBackend t)
            /\ summaryQueue s' = []
            /\ sent s'
               = sent s ++ [(ByTask t,
                             summary_request (apiKey s) (task_email t))]
            /\ started (history s') = started (history s) ++ [t])
        /\ (is_Some (current s) ->
            current s' = current s
            /\ summaryQueue s' = summaryQueue s ++ [t]
            /\ sent s' = sent s
            /\ started (history s') = started (history s)))
  /\ (forall t r,
        let s' := finishTask t r s in
        promises s' !! task_owner t = Some r
        /\ finished (history s') = finished (history s) ++ [t]
        /\ match summaryQueue s with
           | t' :: rest =>
               current s' = Some (AwaitBackend t')
               /\ summaryQueue s' = rest
               /\ started (history s') = started (history s) ++ [t']
               /\ sent s'
                  = sent s ++ [(ByTask t',
                                summary_request (apiKey s) (task_email t'))]
           | [] =>
               current s' = None /\ summaryQueue s' = []
               /\ started (history s') = started (history s)
               /\ sent s' = sent s
           end).
Proof.
  intros Hr. pose proof (reachable_invariant s Hr) as Hi.
  assert (Hfinish : forall t r,
    let s' := finishTask t r s in
    promises s' !! task_owner t = Some r
    /\ finished (history s') = finished (history s) ++ [t]
    /\ match summaryQueue s with
       | t' :: rest =>
           current s' = Some (AwaitBackend t')
           /\ summaryQueue s' = rest
           /\ started (history s') = started (history s) ++ [t']
           /\ sent s'
              = sent s ++ [(ByTask t',
                            summary_request (apiKey s) (task_email t'))]
       | [] =>
           current s' = None /\ summaryQueue s' = []
           /\ started (history s') = started (history s)
           /\ sent s' = sent s
       end).
  { intros t r s'. subst s'.
    rewrite (proj1 (proj2 (finishTask_frame t r s))), lookup_insert_eq.
    split; [done|].
    destruct (finishTask_marks t r s) as [Hf Hst].
    split; [done|]. rewrite Hst.
    destruct (summaryQueue s) as [|t' rest] eqn:Hq.
    - destruct (finishTask_last s t r Hq) as (? & ? & _ & ?).
      by rewrite app_nil_r.
    - by destruct (finishTask_next s t r t' rest Hq) as (? & ? & _ & ? & _). }
  repeat apply conj; try apply Hi.
  - apply running_at_most_one.
  - intros t o err Hc Ho.
    exists (finishTask t (Rejected err) s).
    pose proof (step_task_fails s t o err Hc Ho) as Hs.
    destruct (Hfinish t (Rejected err)) as (Hp & Hf & Hnext).
    destruct (finishTask_frame t (Rejected err) s) as (_ & _ & Hcl & _).
    rewrite Hcl.
    repeat split; try done.
    + by eapply reachable_step.
    + apply (inv_owner s Hi). unfold outstanding, running. rewrite Hc.
      set_solver.
  - intros t Ht. rewrite <- (inv_sent s Hi) in Ht.
    by apply sent_by_tasks_request.
  - intros t s'. split; [apply enqueueSummaryTask_enqueued|]. split.
    + intros Hcur.
      apply enqueueSummaryTask_idle; [|by apply (inv_idle s Hi)].
      destruct (isProcessingSummaryQueue s) eqn:Hb; [|done].
      apply (inv_flag s Hi) in Hb. rewrite Hcur in Hb. by destruct Hb.
    + intros Hcur. apply enqueueSummaryTask_busy. by apply (inv_flag s Hi).
  - apply Hfinish.
Qed.

Lemma C2_queue_is_fifo_and_serial_witness :
  let s := run fresh (take 4 two_messages) in
  (enqueued (history s) = [task_for 0 "a"; task_for 1 "b"]
   /\ started (history s) = [task_for 0 "a"]
   /\ sent_by_tasks s = [task_for 0 "a"]
   /\ summaryQueue s = [task_for 1 "b"])
  /\ exists s',
       step s (BackendDone FetchFailed) = Some s'
       /\ promises s' !! 0%nat = Some (Rejected NetworkError)
       /\ finished (history s') = [task_for 0 "a"]
       /\ current s' = Some (AwaitBackend (task_for 1 "b"))
       /\ summaryQueue s' = []
       /\ started (history s') = [task_for 0 "a"; task_for 1 "b"]
       /\ sent s'
          = sent s ++ [(ByTask (task_for 1 "b"),
                        summary_request None (mail "b"))].
Proof.
  intros s.
  pose proof (C2_queue_is_fifo_and_serial s
                (reachable_run _ _ (reachable_init _ _ _ _)))
    as (Hfifo & Hserial & _ & _ & _ & _ & Hfail & Hsent & _).
  assert (Hq : summaryQueue s = [task_for 1 "b"])
    by (vm_compute; reflexivity).
  assert (Hstarted : started (history s) = [task_for 0 "a"])
    by (vm_compute; reflexivity).
  assert (Hfinished : finished (history s) = [])
    by (vm_compute; reflexivity).
  split.
  { rewrite Hfifo, Hsent, Hstarted, Hq. done. }
  destruct (Hfail (task_for 0 "a") FetchFailed NetworkError
              ltac:(vm_compute; reflexivity) eq_refl)
    as (s' & Hstep & _ & Hp & _ & Hf & Hnext).
  rewrite Hq in Hnext. destruct Hnext as (H1 & H2 & H3 & H4).
  rewrite Hstarted in H3. rewrite Hfinished in Hf.
  exists s'. repeat split; done.
Defined.

(** Three messages, the task of the first failing: the tasks start in
    the order of the calls, each after the one before has finished. *)
Example three_tasks_in_order :
  let s :=
    run fresh
      [Invoke 0 (mail "a"); Invoke 1 (mail "b"); Invoke 2 (mail "c");
       IdReady 0; IdReady 1; IdReady 2;
       BackendDone FetchFailed;
       BackendDone (answer_with (lit "Lunch at noon."));
       StorageGetDone false;
       BackendDone (answer_with (lit "Dinner at eight."))] in
  map snd (history s)
  = [Enqueued (task_for 0 "a"); Started (task_for 0 "a");
     Enqueued (task_for 1 "b"); Enqueued (task_for 2 "c");
     Finished (task_for 0 "a") (Rejected NetworkError);
     Started (task_for 1 "b");
     Finished (task_for 1 "b") (Fulfilled (lit "Lunch at noon."));
     Started (task_for 2 "c")].
Proof. vm_compute. reflexivity. Qed.

(** C3, on the code: with two tasks in the queue, the runner starts the
    second at the very time the first finishes, 107 ms here, although
    the documentation of the queue promises 500 ms between requests. *)
Theorem C3_next_task_starts_without_delay :
  let s := run fresh two_messages in
  finish_times 0 (history s) = [107]
  /\ start_times 1 (history s) = [107]
  /\ now s = 1107.
Proof. vm_compute. repeat split; reflexivity. Qed.

(** * Further properties of the content script *)

(** ** Keys *)

Section KeyFormat.

Lemma hex_digit_is_hex d : d < 16 -> is_hex (hex_digit d) = true.
Proof.
  intros Hd. unfold hex_digit, is_hex.
  destruct (d <? 10) eqn:Hlt.
  - apply N.ltb_lt in Hlt. apply orb_true_iff. left.
    apply andb_true_iff. split; apply N.leb_le; lia.
  - apply N.ltb_ge in Hlt. apply orb_true_iff. right.
    apply andb_true_iff. split; apply N.leb_le; lia.
Qed.

Lemma hex_encode_is_hex bytes :
  Forall (fun b => b < 256) bytes -> forallb is_hex (hex_encode bytes) = true.
Proof.
  induction 1 as [|b bytes Hb _ IH]; [done|].
  unfold hex_encode in *. simpl. rewrite IH.
  rewrite !hex_digit_is_hex; [done| |].
  - apply N.mod_lt. discriminate.
  - apply N.Div0.div_lt_upper_bound. lia.
Qed.

Lemma computeSHA256Hex_is_hex (input : opt) :
  forallb is_hex (computeSHA256Hex input) = true.
Proof.
  rewrite computeSHA256Hex_spec. apply hex_encode_is_hex, digest_small.
Qed.

End KeyFormat.

(** X1: the digest text is always 64 characters long and made of the
    characters [0-9a-f] only. *)
Theorem computeSHA256Hex_format (input : opt) :
  length (computeSHA256Hex input) = 64%nat
  /\ forallb is_hex (computeSHA256Hex input) = true.
Proof.
  split; [apply computeSHA256Hex_length|apply computeSHA256Hex_is_hex].
Qed.

(** X2: the key depends on the body through its first 50 code units
    only: two messages whose bodies agree that far get the same key. *)
Theorem computeSummaryId_body_prefix (d : Document)
    (explicitId subject body1 body2 time : opt) :
  take 50 (or_else body1 []) = take 50 (or_else body2 []) ->
  computeSummaryId d explicitId subject body1 time
  = computeSummaryId d explicitId subject body2 time.
Proof. intros H. unfold computeSummaryId, substring0. by rewrite H. Qed.

Lemma computeSummaryId_body_prefix_witness :
  computeSummaryId blank_page None (Some (lit "Meeting"))
    (Some (replicate 50 97 ++ lit "see you")) None
  = computeSummaryId blank_page None (Some (lit "Meeting"))
      (Some (replicate 50 97 ++ lit "cancelled")) None.
Proof. apply computeSummaryId_body_prefix. reflexivity. Defined.

Lemma or_else_nonempty (l y : jsstring) : l <> [] -> or_else (Some l) y = l.
Proof. by destruct l. Qed.

(** X3: the fields are joined with ["|"] as they are, so a ["|"] inside
    subject or timestamp moves the boundary: the subject [x|y] at time
    [z] and the subject [x] at time [y|z] get the same key, without any
    collision of the digest. *)
Theorem computeSummaryId_separator (d : Document)
    (explicitId body : opt) (x y z : jsstring) :
  z <> [] ->
  computeSummaryId d explicitId (Some (x ++ lit "|" ++ y)) body (Some z)
  = computeSummaryId d explicitId (Some x) body (Some (y ++ lit "|" ++ z)).
Proof.
  intros Hz.
  assert (Hyz : y ++ lit "|" ++ z <> []) by by destruct y.
  unfold computeSummaryId.
  destruct explicitId as [[|c e]|]; try done;
    (destruct (getOpenMessageIdFromDOM d); [|done]);
    rewrite !or_else_some_nil, !or_else_nonempty by done;
    by rewrite <- !app_assoc.
Qed.

Lemma computeSummaryId_separator_witness :
  computeSummaryId blank_page None (Some (lit "Lunch" ++ lit "|" ++ lit "Mon"))
    None (Some (lit "noon"))
  = computeSummaryId blank_page None (Some (lit "Lunch")) None
      (Some (lit "Mon" ++ lit "|" ++ lit "noon")).
Proof. apply computeSummaryId_separator. discriminate. Defined.

Section RowIds.

Lemma computeRowEmailId_shape row d :
  (exists mid, mid <> [] /\ computeRowEmailId row d = lit "mid:" ++ mid)
  \/ (exists hex, length hex = 64%nat /\ forallb is_hex hex = true
                  /\ computeRowEmailId row d = lit "hash:" ++ hex).
Proof.
  unfold computeRowEmailId.
  destruct (first_of _ _ ≫= _) as [[|c mid]|]; simpl;
    try (right; eexists; split; [apply computeSHA256Hex_length|];
         split; [apply computeSHA256Hex_is_hex|reflexivity]).
  left. by exists (c :: mid).
Qed.

Lemma computeRowEmailId_nonempty row d : computeRowEmailId row d <> [].
Proof.
  destruct (computeRowEmailId_shape row d)
    as [(mid & _ & ->) | (hex & _ & _ & ->)]; discriminate.
Qed.

End RowIds.

(** X4: the identifier of a row is [mid:] followed by a non-empty message
    identifier, or [hash:] followed by 64 hexadecimal digits; passed to
    the wrapper as explicit id it is the cache key, whatever the page
    shows; and when neither the row nor the page carries a message
    identifier, it is the key that the wrapper derives by itself from the
    same subject, time and content, provided the time is not empty. *)
Theorem computeRowEmailId_is_the_key (row : Row) (data : emailData)
    (d : Document) :
  ((exists mid, mid <> []
                /\ computeRowEmailId row data = lit "mid:" ++ mid)
   \/ (exists hex, length hex = 64%nat /\ forallb is_hex hex = true
                   /\ computeRowEmailId row data = lit "hash:" ++ hex))
  /\ (forall subject body time,
        computeSummaryId d (Some (computeRowEmailId row data))
          subject body time
        = computeRowEmailId row data)
  /\ (first_of (row RowMessageId) (row RowClosestMessageId) = None ->
      getOpenMessageIdFromDOM d = [] ->
      truthy (data_time data) = true ->
      computeSummaryId d None (data_subject data)
        (emailContent (request_of data)) (data_time data)
      = computeRowEmailId row data).
Proof.
  split; [apply computeRowEmailId_shape|]. split.
  - intros subject body time. apply computeSummaryId_explicit.
    apply computeRowEmailId_nonempty.
  - intros Hrow Hpage Htime.
    rewrite computeSummaryId_hash by done.
    unfold computeRowEmailId. rewrite Hrow. simpl.
    rewrite computeSHA256Hex_spec, or_else_some_nil.
    by destruct (data_time data) as [[|]|].
Qed.

Lemma computeRowEmailId_is_the_key_witness :
  computeSummaryId blank_page None (data_subject lunch)
    (emailContent (request_of lunch)) (data_time lunch)
  = computeRowEmailId plain_row lunch.
Proof.
  exact (proj2 (proj2 (computeRowEmailId_is_the_key plain_row lunch
                         blank_page)) eq_refl eq_refl eq_refl).
Defined.

(** ** The backend client *)

Section Trim.

Lemma trim_start_suffix s :
  exists p, s = p ++ trim_start s /\ forallb is_space p = true.
Proof.
  induction s as [|c r IH]; [by exists []|]. simpl.
  destruct (is_space c) eqn:Hc; [|by exists []].
  destruct IH as (p & Hp & Hs). exists (c :: p). simpl.
  rewrite Hc, Hs. split; [by f_equal|done].
Qed.

Lemma trim_start_head s c r :
  trim_start s = c :: r -> is_space c = false.
Proof.
  induction s as [|a s IH]; [done|]. simpl.
  destruct (is_space a) eqn:Ha; [done|]. by intros [= <- _].
Qed.

Lemma trim_start_nil s :
  trim_start s = [] <-> forallb is_space s = true.
Proof.
  induction s as [|a s IH]; [done|]. simpl.
  destruct (is_space a); [done|]. split; discriminate.
Qed.

Lemma forallb_rev (f : N -> bool) l : forallb f (rev l) = forallb f l.
Proof.
  induction l as [|a l IH]; [done|]. simpl.
  rewrite forallb_app, IH. simpl. rewrite andb_true_r. apply andb_comm.
Qed.

(** Nothing but white space is removed, and only from the two ends. *)
Lemma trim_decompose s :
  exists p q, s = p ++ trim s ++ q
              /\ forallb is_space p = true /\ forallb is_space q = true.
Proof.
  unfold trim.
  destruct (trim_start_suffix s) as (p & Hp & Hps).
  destruct (trim_start_suffix (rev (trim_start s))) as (q & Hq & Hqs).
  exists p, (rev q). split; [|split; [done|by rewrite forallb_rev]].
  rewrite Hp at 1. f_equal.
  rewrite <- (rev_involutive (trim_start s)) at 1.
  rewrite Hq at 1. by rewrite rev_app_distr.
Qed.

Lemma trim_nil s : trim s = [] <-> forallb is_space s = true.
Proof.
  split.
  - intros Ht. destruct (trim_decompose s) as (p & q & Hs & Hp & Hq).
    rewrite Hs, Ht, !forallb_app, Hp, Hq. done.
  - intros Hs. unfold trim.
    by rewrite (proj2 (trim_start_nil s) Hs).
Qed.

Lemma trim_first s c r : trim s = c :: r -> is_space c = false.
Proof.
  unfold trim. intros Ht.
  set (u := trim_start s) in *.
  set (w := trim_start (rev u)) in *.
  assert (Hw : w = rev (c :: r)) by by rewrite <- Ht, rev_involutive.
  simpl in Hw.
  destruct (trim_start_suffix (rev u)) as (p & Hp & Hps). fold w in Hp.
  destruct u as [|a u'] eqn:Hu.
  { simpl in Hp. symmetry in Hp. apply app_eq_nil in Hp as [_ Hp].
    rewrite Hw in Hp. by destruct (rev r). }
  pose proof (trim_start_head s a u' Hu) as Ha.
  assert (rev (rev (a :: u')) = rev (p ++ rev r ++ [c])) as Hrev
    by by rewrite Hp, Hw.
  rewrite rev_involutive, !rev_app_distr in Hrev. simpl in Hrev.
  by injection Hrev as -> _.
Qed.

Lemma trim_last s c r : trim s = r ++ [c] -> is_space c = false.
Proof.
  unfold trim. intros Ht.
  assert (Hw : trim_start (rev (trim_start s)) = c :: rev r).
  { rewrite <- (rev_involutive (trim_start _)), Ht, rev_app_distr. done. }
  by apply trim_start_head in Hw.
Qed.

End Trim.

(** X5: the text returned by the backend client is the generated text
    without the white space at its two ends: it neither begins nor ends
    with white space, and it is the empty string exactly when the
    generated text, which is not empty, is white space only. *)
Theorem callGeminiAPI_returns_trimmed_text (o : fetch_outcome)
    (text : jsstring) :
  callGeminiAPI_settled o = Fulfilled text ->
  (forall c r, text = c :: r -> is_space c = false)
  /\ (forall c r, text = r ++ [c] -> is_space c = false)
  /\ (exists status body content p q,
        o = Response status (Some body)
        /\ generated_content body = Some content
        /\ content <> []
        /\ content = p ++ text ++ q
        /\ forallb is_space p = true /\ forallb is_space q = true
        /\ (text = [] <-> forallb is_space content = true)).
Proof.
  intros Hs.
  apply settled_fulfilled in Hs as (status & body & content & -> & _ & Hc & ->).
  split; [intros c r; apply trim_first|].
  split; [intros c r; apply trim_last|].
  destruct (trim_decompose content) as (p & q & Hd & Hp & Hq).
  exists status, body, content, p, q. repeat split; try done.
  - unfold generated_content in Hc.
    destruct (at_path body content_path) as [[| | |[|]| |]|]; try done.
    by injection Hc as <-.
  - by apply trim_nil.
  - by apply trim_nil.
Qed.

Lemma callGeminiAPI_returns_trimmed_text_witness :
  let text := lit "Lunch at noon." in
  (exists c r, text = c :: r /\ is_space c = false)
  /\ (exists c r, text = r ++ [c] /\ is_space c = false).
Proof.
  intros text.
  pose proof (callGeminiAPI_returns_trimmed_text
                (answer_with (lit "  Lunch at noon. ")) text
                ltac:(vm_compute; reflexivity)) as (Hfirst & Hlast & _).
  split.
  - exists 76, (lit "unch at noon."). split; [reflexivity|].
    by apply (Hfirst 76 (lit "unch at noon.")).
  - exists 46, (lit "Lunch at noon"). split; [reflexivity|].
    by apply (Hlast 46 (lit "Lunch at noon")).
Defined.

(** ** Persistence *)

Section Persistence.

Implicit Types (s : state) (t : task) (v : jsstring).

Lemma withId_current c m k s :
  current (withId c m k s) = current s
  \/ exists t, current (withId c m k s) = Some (AwaitBackend t).
Proof.
  unfold withId, enqueueSummaryTask, processSummaryQueue. simpl.
  destruct (getCachedSummary _ _); [by left|].
  destruct (inFlightSummaries s !! k); [by left|].
  destruct (isProcessingSummaryQueue s); [by left|].
  destruct (summaryQueue s); right; by eexists.
Qed.

Lemma finishTask_current t o s :
  current (finishTask t o s) = None
  \/ exists t', current (finishTask t o s) = Some (AwaitBackend t').
Proof.
  unfold finishTask, processSummaryQueue. simpl.
  destruct (summaryQueue s); [by left|right; by eexists].
Qed.

(** While the write is pending, what it will write is what was read plus
    the entry of the task: nothing else writes the slot in between. *)
Lemma pending_write s :
  reachable s ->
  forall t v raw,
    current s = Some (AwaitStorageSet t v raw) ->
    raw = <[task_id t := v]> (stored s).
Proof.
  induction 1 as [key d slot readable|s e s' Hr IH Hs]; [done|].
  intros t v raw Hc.
  assert (Hfin : forall t0 o s0,
    current (finishTask t0 o s0) <> Some (AwaitStorageSet t v raw)).
  { intros t0 o s0 H. by destruct (finishTask_current t0 o s0) as [H'|[? H']];
      rewrite H' in H. }
  destruct e as [c m|c|o|ok|ok|c|c o|d|ms]; simpl in Hs.
  - destruct (calls s !! c); [done|]. injection Hs as <-. by apply IH.
  - destruct (calls s !! c) as [[m id| | | |]|]; try done.
    injection Hs as <-.
    destruct (withId_current c m id s) as [H'|[? H']];
      rewrite H' in Hc; [|done].
    unfold stored. rewrite (proj2 (proj2 (withId_frame c m id s))).
    by apply IH.
  - destruct (current s) as [[t0| |]|]; try done.
    destruct (callGeminiAPI_settled o); injection Hs as <-; [done|].
    by apply Hfin in Hc.
  - destruct (current s) as [[|t0 summary|]|]; try done.
    destruct ok; injection Hs as <-; [|by apply Hfin in Hc].
    simpl in Hc. by injection Hc as <- <- <-.
  - destruct (current s) as [[| |t0 summary raw0]|]; try done.
    injection Hs as <-. by apply Hfin in Hc.
  - destruct (calls s !! c) as [[|m p|m id| |]|]; try done.
    + destruct (promises s !! p) as [[w|err]|]; try done;
        injection Hs as <-; by apply IH.
    + destruct (promises s !! c) as [[w|err]|]; try done;
        injection Hs as <-; by apply IH.
  - destruct (calls s !! c) as [[| | |m|]|]; try done.
    injection Hs as <-. by apply IH.
  - injection Hs as <-. by apply IH.
  - injection Hs as <-. by apply IH.
Qed.


End Persistence.

Lemma setCachedSummary_adds_one_entry_aux (s : state) (t : task)
    (v : jsstring) (raw : table) :
  reachable s ->
  current s = Some (AwaitStorageSet t v raw) ->
  exists s',
    step s (StorageSetDone true) = Some s'
    /\ storage s' = Some (<[task_id t := v]> (stored s))
    /\ stored s' !! task_id t = Some v
    /\ (forall k, k <> task_id t -> stored s' !! k = stored s !! k).
Proof.
  intros Hr Hc.
  exists (finishTask t (Fulfilled v) (set_storage (Some raw) s)).
  split; [simpl; by rewrite Hc|].
  unfold stored at 1 2 3.
  rewrite (proj2 (proj2 (proj2 (proj2 (finishTask_frame _ _ _))))). simpl.
  rewrite (pending_write s Hr _ _ _ Hc).
  split; [done|]. split; [apply lookup_insert_eq|].
  intros k Hk. by rewrite lookup_insert_ne.
Qed.



Lemma run_two s e1 e2 s1 s2 :
  step s e1 = Some s1 -> step s1 e2 = Some s2 -> run s [e1; e2] = s2.
Proof.
  intros H1 H2.
  change [e1; e2] with ([e1] ++ [e2]). rewrite run_snoc.
  change (run s [e1]) with (default s (step s e1)).
  rewrite H1. simpl. by rewrite H2.
Qed.

(** X7: a summary that has been persisted is served from the cache after
    a restart: the script initialised on the storage left by a successful
    write finds the summary under the key of the task, if it is not
    empty, and answers a call for that key without any backend call. *)
Theorem persisted_summary_survives_restart (s : state) (t : task)
    (v : jsstring) (raw : table) (key : opt) (d : Document)
    (c : caller) (m : email) :
  reachable s ->
  current s = Some (AwaitStorageSet t v raw) ->
  v <> [] ->
  exists s',
    step s (StorageSetDone true) = Some s'
    /\ let restarted := init key d (storage s') true in
       getCachedSummary (summaryCache restarted) (task_id t) = Some v
       /\ (computeSummaryId d (options_id m) (emailSubject m)
             (emailContent m) (Some (or_else (options_time m) []))
           = task_id t ->
           let after := run restarted [Invoke c m; IdReady c] in
           calls after !! c = Some (Settled (Fulfilled v))
           /\ sent after = []).
Proof.
  intros Hr Hc Hv.
  destruct (setCachedSummary_adds_one_entry_aux s t v raw Hr Hc)
    as (s' & Hs & Hst & _).
  exists s'. split; [done|]. intros restarted.
  assert (Hcache : summaryCache restarted !! task_id t = Some v).
  { unfold restarted. simpl. rewrite Hst. simpl. apply lookup_insert_eq. }
  split; [by apply getCachedSummary_some|].
  intros Hk after.
  assert (H1 : step restarted (Invoke c m) = Some (invoke c m restarted)).
  { simpl. by rewrite lookup_empty. }
  assert (H2 : step (invoke c m restarted) (IdReady c)
               = Some (answer c (Fulfilled v)
                         (note (CacheHit c v) (invoke c m restarted)))).
  { apply (step_hit _ c m (task_id t)); [|done..].
    unfold invoke. simpl. rewrite lookup_insert_eq. by rewrite <- Hk. }
  unfold after. rewrite (run_two _ _ _ _ _ H1 H2). simpl.
  by rewrite lookup_insert_eq.
Qed.

Lemma persisted_summary_survives_restart_witness :
  let s := run fresh (take 4 (one_call 0 "k" (lit "Lunch at noon.") true)) in
  exists s',
    step s (StorageSetDone true) = Some s'
    /\ let restarted := init None blank_page (storage s') true in
       getCachedSummary (summaryCache restarted) (lit "k")
       = Some (lit "Lunch at noon.")
       /\ (computeSummaryId blank_page (options_id (mail "k"))
             (emailSubject (mail "k")) (emailContent (mail "k"))
             (Some (or_else (options_time (mail "k")) []))
           = lit "k" ->
           let after := run restarted [Invoke 7%nat (mail "k"); IdReady 7%nat] in
           calls after !! 7%nat
           = Some (Settled (Fulfilled (lit "Lunch at noon.")))
           /\ sent after = []).
Proof.
  intros s.
  refine (persisted_summary_survives_restart s (task_for 0 "k")
            (lit "Lunch at noon.") {[ lit "k" := lit "Lunch at noon." ]}
            None blank_page 7%nat (mail "k") _ _ _).
  - apply reachable_run, reachable_init.
  - vm_compute. reflexivity.
  - discriminate.
Defined.

(** ** The queue and the in-flight map at rest *)

(** X9: nothing is left behind: in a state where no call is suspended
    on a task promise, the in-flight map is empty, no task is running and
    the queue is empty. *)
Theorem nothing_left_in_flight (s : state) :
  reachable s ->
  (forall c m k, calls s !! c <> Some (AwaitTask m k)) ->
  inFlightSummaries s = ∅
  /\ current s = None
  /\ summaryQueue s = []
  /\ isProcessingSummaryQueue s = false.
Proof.
  intros Hr Hn. pose proof (reachable_invariant s Hr) as Hi.
  assert (Hc : current s = None).
  { destruct (current s) as [rp|] eqn:Hc; [|done].
    assert (task_of rp ∈ outstanding s) as Hin.
    { unfold outstanding, running. rewrite Hc. set_solver. }
    destruct (inv_owner s Hi _ Hin) as [Ho _]. by apply Hn in Ho. }
  repeat split; try done.
  - apply map_empty. intros k.
    destruct (inFlightSummaries s !! k) as [p|] eqn:Hk; [|done].
    destruct (inv_inflight s Hi _ _ Hk) as [m Hm]. by apply Hn in Hm.
  - by apply (inv_idle s Hi).
  - destruct (isProcessingSummaryQueue s) eqn:Hf; [|done].
    apply (inv_flag s Hi) in Hf. rewrite Hc in Hf. by destruct Hf.
Qed.

Lemma nothing_left_in_flight_witness :
  inFlightSummaries (run fresh two_calls_task_succeeds) = ∅.
Proof.
  refine (proj1 (nothing_left_in_flight _ _ _)).
  - apply reachable_run, reachable_init.
  - intros c m k H. apply elem_of_map_to_list in H. revert H.
    assert (map_to_list (calls (run fresh two_calls_task_succeeds))
            = [(1%nat, Settled (Fulfilled (lit "Lunch at noon.")));
               (0%nat, Settled (Fulfilled (lit "Lunch at noon.")))]) as ->.
    { vm_compute. reflexivity. }
    intros H. apply elem_of_cons in H as [H | H]; [done|].
    apply list_elem_of_singleton in H. done.
Defined.

Section Drain.

Implicit Types (s : state) (t : task).

Lemma finishTask_enqueued t o s :
  enqueued (history (finishTask t o s)) = enqueued (history s).
Proof.
  unfold finishTask, processSummaryQueue, enqueued. simpl.
  destruct (summaryQueue s); simpl; rewrite !omap_app; simpl;
    by rewrite ?app_nil_r.
Qed.

Lemma finishTask_outstanding t o s :
  outstanding (finishTask t o s) = summaryQueue s.
Proof.
  unfold outstanding, running.
  destruct (summaryQueue s) as [|t' rest] eqn:Hq.
  - by destruct (finishTask_last s t o Hq) as (-> & -> & _).
  - by destruct (finishTask_next s t o t' rest Hq) as (-> & -> & _).
Qed.

Lemma run_cons s e es : run s (e :: es) = run (default s (step s e)) es.
Proof. reflexivity. Qed.

Lemma work_finishTask t r s :
  work (finishTask t r s) = (3 * length (summaryQueue s))%nat.
Proof.
  unfold work. destruct (summaryQueue s) as [|t' rest] eqn:Hq.
  - by destruct (finishTask_last s t r Hq) as (-> & -> & _).
  - destruct (finishTask_next s t r t' rest Hq) as (-> & -> & _).
    simpl. lia.
Qed.

Lemma work_withId c m k s : (work (withId c m k s) <= work s + 3)%nat.
Proof.
  unfold withId.
  destruct (getCachedSummary _ _); [unfold work; simpl; lia|].
  destruct (inFlightSummaries s !! k); [unfold work; simpl; lia|].
  unfold enqueueSummaryTask, processSummaryQueue, work. simpl.
  destruct (isProcessingSummaryQueue s); simpl.
  { rewrite length_app. simpl. lia. }
  destruct (summaryQueue s) as [|t' rest]; simpl; [lia|].
  rewrite length_app. simpl. destruct (current s) as [[| |]|]; simpl; lia.
Qed.

(** A settlement uses up at least one await; a new call adds at most the
    three of one task; nothing else changes the work left. *)
Lemma work_step s e s' :
  step s e = Some s' ->
  match e with
  | BackendDone _ | StorageGetDone _ | StorageSetDone _ =>
      (work s' < work s)%nat
  | IdReady _ => (work s' <= work s + 3)%nat
  | _ => work s' = work s
  end.
Proof.
  intros Hs.
  destruct e as [c m|c|o|ok|ok|c|c o|d|ms]; simpl in Hs.
  - destruct (calls s !! c); [done|]. by injection Hs as <-.
  - destruct (calls s !! c) as [[m id| | | |]|]; try done.
    injection Hs as <-. apply work_withId.
  - destruct (current s) as [[t| |]|] eqn:Hc; try done.
    destruct (callGeminiAPI_settled o); injection Hs as <-.
    + unfold work. simpl. rewrite Hc. simpl. lia.
    + rewrite work_finishTask. unfold work. rewrite Hc. simpl. lia.
  - destruct (current s) as [[|t v|]|] eqn:Hc; try done.
    destruct ok; injection Hs as <-.
    + unfold work. simpl. rewrite Hc. simpl. lia.
    + rewrite work_finishTask. unfold work. rewrite Hc. simpl. lia.
  - destruct (current s) as [[| |t v raw]|] eqn:Hc; try done.
    injection Hs as <-. rewrite work_finishTask.
    unfold work. rewrite Hc. destruct ok; simpl; lia.
  - destruct (calls s !! c) as [[|m p|m id| |]|]; try done.
    + destruct (promises s !! p) as [[v|err]|]; try done;
        by injection Hs as <-.
    + destruct (promises s !! c) as [[v|err]|]; try done;
        by injection Hs as <-.
  - destruct (calls s !! c) as [[| | |m|]|]; try done.
    by injection Hs as <-.
  - by injection Hs as <-.
  - by injection Hs as <-.
Qed.

(** The settlement that the running task waits for can always happen,
    whatever its outcome. *)
Lemma settles_enabled s rp e :
  current s = Some rp -> settles rp e = true -> is_Some (step s e).
Proof.
  intros Hc He.
  destruct rp as [t|t v|t v raw], e as [| |o|ok|ok| | | |]; try done;
    simpl; rewrite Hc.
  - by destruct (callGeminiAPI_settled o).
  - by destruct ok.
  - done.
Qed.

Lemma settles_enqueued s rp e s' :
  current s = Some rp -> settles rp e = true -> step s e = Some s' ->
  enqueued (history s') = enqueued (history s).
Proof.
  intros Hc He Hs.
  destruct rp as [t|t v|t v raw], e as [| |o|ok|ok| | | |]; try done;
    simpl in Hs; rewrite Hc in Hs.
  - destruct (callGeminiAPI_settled o); injection Hs as <-;
      [done|apply finishTask_enqueued].
  - destruct ok; injection Hs as <-; [done|apply finishTask_enqueued].
  - injection Hs as <-.
    destruct ok;
      [apply (finishTask_enqueued t (Fulfilled v) (set_storage (Some raw) s))
      |apply finishTask_enqueued].
Qed.

Lemma finished_outstanding s :
  reachable s ->
  finished (history s) ++ outstanding s = enqueued (history s).
Proof.
  intros Hr. pose proof (reachable_invariant s Hr) as Hi.
  unfold outstanding.
  by rewrite (inv_fifo s Hi), (inv_serial s Hi), <- app_assoc.
Qed.

Lemma settling_run es :
  forall s, reachable s -> settling s es = true ->
    (work (run s es) + length es <= work s)%nat
    /\ enqueued (history (run s es)) = enqueued (history s).
Proof.
  induction es as [|e es IH]; intros s Hr Hes; [simpl; split; [lia|done]|].
  simpl in Hes. destruct (current s) as [rp|] eqn:Hc; [|done].
  apply andb_true_iff in Hes as [He Hes].
  destruct (settles_enabled s rp e Hc He) as [s1 Hs1].
  rewrite run_cons. rewrite Hs1 in Hes |- *. simpl in Hes |- *.
  assert (Hr1 : reachable s1) by by eapply reachable_step.
  destruct (IH s1 Hr1 Hes) as [Hw Hq].
  rewrite Hq, (settles_enqueued s rp e s1 Hc He Hs1).
  split; [|done].
  pose proof (work_step s e s1 Hs1) as Hstep.
  destruct rp, e; try done; lia.
Qed.

End Drain.

(** X8: the queue always drains, whatever the outcomes.  The work left
    is three awaits for each queued task (backend call, read and write
    of the storage) plus those left of the running task.  In every state
    the script reaches: every settlement of the await of the running
    task, succeeding or failing, can happen and leaves strictly less
    work; a new call adds at most the work of one task and no other
    event changes it.  So along every run made of such settlements the
    work left and the length of the run stay within the work at the
    start, which is at most three times the number of outstanding tasks;
    the tasks finished followed by the tasks outstanding remain the
    tasks enqueued, in order; and when no task is running any more the
    queue is empty and the tasks finished are exactly the tasks
    enqueued, in the order of the queue. *)
Theorem queue_drains (s : state) :
  reachable s ->
  (forall e s',
     step s e = Some s' ->
     match e with
     | BackendDone _ | StorageGetDone _ | StorageSetDone _ =>
         (work s' < work s)%nat
     | IdReady _ => (work s' <= work s + 3)%nat
     | _ => work s' = work s
     end)
  /\ (forall rp e,
        current s = Some rp -> settles rp e = true -> is_Some (step s e))
  /\ (work s <= 3 * length (outstanding s))%nat
  /\ (work s = 0%nat <-> current s = None)
  /\ (forall es,
        settling s es = true ->
        let s' := run s es in
        (work s' + length es <= work s)%nat
        /\ finished (history s') ++ outstanding s' = enqueued (history s)
        /\ (current s' = None ->
            summaryQueue s' = []
            /\ finished (history s') = enqueued (history s))).
Proof.
  intros Hr. pose proof (reachable_invariant s Hr) as Hi.
  split; [intros e s'; apply work_step|].
  split; [apply settles_enabled|].
  split.
  { unfold work, outstanding, running. rewrite length_app.
    destruct (current s) as [[| |]|]; simpl; lia. }
  split.
  { unfold work. split.
    - destruct (current s) as [[| |]|]; simpl; [lia..|done].
    - intros Hc. rewrite Hc, (inv_idle s Hi Hc). done. }
  intros es Hes s'.
  destruct (settling_run es s Hr Hes) as [Hw Hq].
  assert (Hr' : reachable s') by by apply reachable_run.
  pose proof (finished_outstanding s' Hr') as Hfo.
  fold s' in Hw, Hq. rewrite Hq in Hfo.
  split; [done|]. split; [done|].
  intros Hc.
  pose proof (inv_idle s' (reachable_invariant s' Hr') Hc) as Hempty.
  split; [done|].
  unfold outstanding, running in Hfo. rewrite Hc, Hempty in Hfo.
  simpl in Hfo. by rewrite app_nil_r in Hfo.
Qed.

Lemma queue_drains_witness :
  let s := run fresh (take 4 two_messages) in
  let es := [BackendDone (answer_with (lit "Lunch at noon."));
             StorageGetDone true; StorageSetDone true;
             BackendDone FetchFailed] in
  let s' := run s es in
  (work s' + length es <= work s)%nat
  /\ finished (history s') ++ outstanding s' = enqueued (history s)
  /\ summaryQueue s' = []
  /\ finished (history s') = enqueued (history s).
Proof.
  intros s es s'.
  destruct (queue_drains s (reachable_run _ _ (reachable_init _ _ _ _)))
    as (_ & _ & _ & _ & Hrun).
  destruct (Hrun es ltac:(vm_compute; reflexivity)) as (Hw & Hfo & Hidle).
  destruct (Hidle ltac:(vm_compute; reflexivity)) as [Hq Hf].
  repeat split; done.
Defined.

(** ** The direct call of the [catch] block *)

Section DirectCalls.

Implicit Types (s : state) (c : caller).

Lemma direct_calls_task c s t r :
  direct_calls c (send (ByTask t) r s) = direct_calls c s.
Proof.
  unfold direct_calls. simpl. rewrite omap_app. simpl. by rewrite app_nil_r.
Qed.

Lemma direct_calls_processSummaryQueue c s :
  direct_calls c (processSummaryQueue s) = direct_calls c s.
Proof.
  unfold processSummaryQueue.
  destruct (isProcessingSummaryQueue s); [done|].
  destruct (summaryQueue s); [done|].
  unfold direct_calls. simpl. rewrite omap_app. simpl. by rewrite app_nil_r.
Qed.

Lemma direct_calls_finishTask c t o s :
  direct_calls c (finishTask t o s) = direct_calls c s.
Proof.
  unfold finishTask. simpl.
  destruct (0 <? length (summaryQueue s))%nat; [|done].
  by rewrite direct_calls_processSummaryQueue.
Qed.

Lemma direct_calls_withId c c' m k s :
  direct_calls c (withId c' m k s) = direct_calls c s.
Proof.
  unfold withId.
  destruct (getCachedSummary _ _); [done|].
  destruct (inFlightSummaries s !! k); [done|].
  unfold enqueueSummaryTask. simpl.
  change (direct_calls c
            (processSummaryQueue
               (note (Enqueued {| task_id := k; task_owner := c';
                                  task_email := m |})
                  (set_summaryQueue
                     (summaryQueue s
                        ++ [{| task_id := k; task_owner := c';
                               task_email := m |}]) s)))
          = direct_calls c s).
  by rewrite direct_calls_processSummaryQueue.
Qed.

Lemma direct_calls_fallBack c c' m s :
  direct_calls c (fallBack c' m s)
  = direct_calls c s
      ++ (if decide (c' = c) then [summary_request (apiKey s) m] else []).
Proof.
  unfold direct_calls, fallBack. simpl. rewrite omap_app. simpl.
  by destruct (decide (c' = c)).
Qed.

(** Every call has made the direct calls that its point tells. *)
Lemma direct_calls_counted s :
  reachable s ->
  forall c, direct_calls_at (calls s !! c) (length (direct_calls c s)).
Proof.
  induction 1 as [key d slot readable|s e s' Hr IH Hs]; [done|].
  intros c. specialize (IH c).
  destruct e as [c' m|c'|o|ok|ok|c'|c' o|d|ms]; simpl in Hs.
  - destruct (calls s !! c') eqn:Hc; [done|]. injection Hs as <-.
    unfold invoke. simpl. rewrite lookup_insert.
    case_decide; [subst|done]. by rewrite Hc in IH.
  - destruct (calls s !! c') as [[m id| | | |]|] eqn:Hc; try done.
    injection Hs as <-. rewrite direct_calls_withId.
    destruct (decide (c = c')) as [->|Hne].
    + rewrite withId_call, Hc in *. simpl in IH. rewrite IH.
      destruct (getCachedSummary _ _); simpl; [lia|].
      by destruct (inFlightSummaries s !! id).
    + by rewrite withId_calls_other.
  - destruct (current s) as [[t| |]|]; try done.
    destruct (callGeminiAPI_settled o); injection Hs as <-; [done|].
    by rewrite direct_calls_finishTask,
      (proj1 (proj2 (proj2 (finishTask_frame _ _ _)))).
  - destruct (current s) as [[|t summary|]|]; try done.
    destruct ok; injection Hs as <-; [done|].
    by rewrite direct_calls_finishTask,
      (proj1 (proj2 (proj2 (finishTask_frame _ _ _)))).
  - destruct (current s) as [[| |t summary raw]|]; try done.
    injection Hs as <-.
    rewrite direct_calls_finishTask,
      (proj1 (proj2 (proj2 (finishTask_frame _ _ _)))).
    by destruct ok.
  - assert (Hanswer : forall v s0,
      direct_calls c s0 = direct_calls c s ->
      calls s0 !! c = calls s !! c ->
      (c = c' -> length (direct_calls c s) = 0%nat) ->
      direct_calls_at (calls (answer c' (Fulfilled v) s0) !! c)
        (length (direct_calls c (answer c' (Fulfilled v) s0)))).
    { intros v s0 Hd Hcl H0. unfold answer. simpl.
      change (direct_calls c (note _ (set_call c' _ s0)))
        with (direct_calls c s0).
      rewrite Hd, lookup_insert. case_decide; [subst|by rewrite Hcl].
      simpl. rewrite H0; [lia|done]. }
    assert (Hfall : forall m s0,
      direct_calls c s0 = direct_calls c s ->
      calls s0 !! c = calls s !! c ->
      (c = c' -> length (direct_calls c s) = 0%nat) ->
      direct_calls_at (calls (fallBack c' m s0) !! c)
        (length (direct_calls c (fallBack c' m s0)))).
    { intros m s0 Hd Hcl H0. rewrite direct_calls_fallBack, Hd.
      unfold fallBack. simpl. rewrite lookup_insert.
      destruct (decide (c' = c)) as [->|Hne]; simpl.
      - by rewrite length_app, H0.
      - by rewrite app_nil_r, Hcl. }
    destruct (calls s !! c') as [[|m p|m id| |]|] eqn:Hc; try done.
    + assert (c = c' -> length (direct_calls c s) = 0%nat) as H0.
      { intros ->. by rewrite Hc in IH. }
      destruct (promises s !! p) as [[v|err]|]; try done;
        injection Hs as <-; [apply Hanswer|apply Hfall]; auto.
    + assert (c = c' -> length (direct_calls c s) = 0%nat) as H0.
      { intros ->. by rewrite Hc in IH. }
      destruct (promises s !! c') as [[v|err]|]; try done;
        injection Hs as <-; [apply Hanswer|apply Hfall]; auto.
  - destruct (calls s !! c') as [[| | |m|]|] eqn:Hc; try done.
    injection Hs as <-. unfold answer. simpl.
    change (direct_calls c (note _ (set_call c' _ s)))
      with (direct_calls c s).
    rewrite lookup_insert. case_decide; [subst|done].
    rewrite Hc in IH. simpl in IH. rewrite IH.
    destruct (callGeminiAPI_settled o); simpl; lia.
  - by injection Hs as <-.
  - by injection Hs as <-.
Qed.

End DirectCalls.

(** X10: the failure of a queued task is never the answer of the
    wrapper: a call is rejected only after it has called the backend
    directly, once, and that call has failed.  No call makes more than
    one direct call, and none while it waits for its key, for a task in
    flight or for its own task. *)
Theorem rejected_only_after_direct_call (s : state) (c : caller) :
  reachable s ->
  (forall err, calls s !! c = Some (Settled (Rejected err)) ->
               length (direct_calls c s) = 1%nat)
  /\ (length (direct_calls c s) <= 1)%nat
  /\ (forall m k, calls s !! c = Some (AwaitId m k)
                  \/ calls s !! c = Some (AwaitTask m k)
                  \/ (exists p, calls s !! c = Some (AwaitInFlight m p)) ->
                  direct_calls c s = []).
Proof.
  intros Hr. pose proof (direct_calls_counted s Hr c) as H.
  split; [|split].
  - intros err Hc. by rewrite Hc in H.
  - destruct (calls s !! c) as [[| | | |[|]]|]; simpl in H; lia.
  - intros m k [Hc | [Hc | [p Hc]]]; rewrite Hc in H; simpl in H;
      by apply nil_length_inv.
Qed.

Lemma rejected_only_after_direct_call_witness :
  (length (direct_calls 0 (run fresh (take 7 two_calls_task_fails))) <= 1)%nat.
Proof.
  refine (proj1 (proj2 (rejected_only_after_direct_call _ 0%nat _))).
  apply reachable_run, reachable_init.
Defined.

(** ** Waiting for the mail page *)

Section Scripts.

Context {E : Type} {R : E -> Type} {X A : Type}.
Implicit Types (p : script E R X A) (env : environment E R).

(** The requests of a script come after those already made. *)
Lemma play_extends env p past :
  exists t, (play env p past).1 = past ++ t.
Proof.
  revert past. induction p as [a|x|e k IH]; intros past; simpl.
  - exists []. by rewrite app_nil_r.
  - exists []. by rewrite app_nil_r.
  - destruct (IH (env past e) (past ++ [e])) as [t Ht].
    exists (e :: t). rewrite Ht. by rewrite <- app_assoc.
Qed.

Lemma play_catch env p handler past :
  play env (catch p handler) past
  = match (play env p past).2 with
    | inr a => play env p past
    | inl x => play env (handler x) (play env p past).1
    end.
Proof.
  revert past. induction p as [a|x|e k IH]; intros past; simpl; [done..|].
  apply IH.
Qed.

End Scripts.

Section Page.

Implicit Types (env : environment page_request page_answer).

Lemma checks_app t1 t2 : checks (t1 ++ t2) = (checks t1 + checks t2)%nat.
Proof. unfold checks. by rewrite List.filter_app, length_app. Qed.

Lemma slept_app t1 t2 : slept (t1 ++ t2) = slept t1 + slept t2.
Proof.
  induction t1 as [|e t1 IH]; simpl; [done|].
  destruct e; rewrite IH; lia.
Qed.

Lemma rounds_S n : rounds (S n) = [CheckGmail; Sleep 500] ++ rounds n.
Proof. reflexivity. Qed.

Lemma rounds_snoc n : rounds (S n) = rounds n ++ [CheckGmail; Sleep 500].
Proof.
  induction n as [|n IH]; [done|].
  rewrite rounds_S, IH at 1. by rewrite rounds_S, app_assoc.
Qed.

Lemma checks_rounds n : checks (rounds n) = n.
Proof.
  induction n as [|n IH]; [done|].
  rewrite rounds_S, checks_app, IH. done.
Qed.

Lemma slept_rounds n : slept (rounds n) = 500 * N.of_nat n.
Proof.
  induction n as [|n IH]; [done|].
  rewrite rounds_S, slept_app, IH. simpl. lia.
Qed.

Lemma checks_polls n : checks (polls n) = S n.
Proof.
  unfold polls. rewrite checks_app, checks_rounds.
  change (checks [CheckGmail]) with 1%nat. lia.
Qed.

Lemma slept_polls n : slept (polls n) = 500 * N.of_nat n.
Proof.
  unfold polls. rewrite slept_app, slept_rounds.
  change (slept [CheckGmail]) with 0. lia.
Qed.

Lemma checkGmail_found env M fuel a past :
  env past CheckGmail = true ->
  play env (checkGmail fuel M a) past = (past ++ [CheckGmail], inr tt).
Proof. intros He. destruct fuel; simpl; by rewrite He. Qed.

Lemma checkGmail_last env M fuel a past :
  env past CheckGmail = false -> (M <= S a)%nat ->
  play env (checkGmail fuel M a) past = (past ++ [CheckGmail], inl not_found).
Proof.
  intros He Hm. apply Nat.ltb_ge in Hm.
  destruct fuel; simpl; by rewrite He, Hm.
Qed.

Lemma checkGmail_more env M fuel a past :
  env past CheckGmail = false -> (S a < M)%nat ->
  play env (checkGmail (S fuel) M a) past
  = play env (checkGmail fuel M (S a)) ((past ++ [CheckGmail]) ++ [Sleep 500]).
Proof.
  intros He Hm. apply Nat.ltb_lt in Hm. simpl. by rewrite He, Hm.
Qed.

(** [checkGmail], entered after [a] checks with enough timer callbacks
    left: it checks until the page is found or [M] checks are made. *)
Lemma checkGmail_play env M fuel :
  forall a past,
    (M <= fuel + S a)%nat ->
    exists n r,
      play env (checkGmail fuel M a) past = (past ++ polls n, r)
      /\ (n <= M - S a)%nat
      /\ (forall i, (i < n)%nat ->
                    env (past ++ rounds i) CheckGmail = false)
      /\ ((r = inr tt /\ env (past ++ rounds n) CheckGmail = true)
          \/ (r = inl not_found
              /\ env (past ++ rounds n) CheckGmail = false
              /\ n = (M - S a)%nat)).
Proof.
  assert (Hzero : forall past, past ++ rounds 0 = past).
  { intros past. unfold rounds. simpl. by rewrite app_nil_r. }
  induction fuel as [|fuel IH]; intros a past Hf.
  - destruct (env past CheckGmail) eqn:He.
    + exists 0%nat, (inr tt). rewrite Hzero.
      split; [by apply checkGmail_found|]. split; [lia|].
      split; [intros i Hi; lia|]. by left.
    + exists 0%nat, (inl not_found). rewrite Hzero.
      split; [apply checkGmail_last; [done|lia]|]. split; [lia|].
      split; [intros i Hi; lia|]. right. repeat split; [done|lia].
  - destruct (env past CheckGmail) eqn:He.
    + exists 0%nat, (inr tt). rewrite Hzero.
      split; [by apply checkGmail_found|]. split; [lia|].
      split; [intros i Hi; lia|]. by left.
    + destruct (decide (S a < M)%nat) as [Hlt|Hge].
      * destruct (IH (S a) ((past ++ [CheckGmail]) ++ [Sleep 500]))
          as (n & r & Hp & Hn & Hbefore & Hres); [lia|].
        assert (Hpast : forall i,
          ((past ++ [CheckGmail]) ++ [Sleep 500]) ++ rounds i
          = past ++ rounds (S i)).
        { intros i. by rewrite rounds_S, <- !app_assoc. }
        exists (S n), r. split; [|split; [lia|split]].
        -- rewrite checkGmail_more, Hp by done.
           unfold polls. by rewrite app_assoc, Hpast, <- app_assoc.
        -- intros [|i] Hi; [by rewrite Hzero|].
           rewrite <- Hpast. apply Hbefore. lia.
        -- rewrite <- Hpast.
           destruct Hres as [[H1 H2] | (H1 & H2 & H3)]; [by left|].
           right. repeat split; [done..|lia].
      * exists 0%nat, (inl not_found). rewrite Hzero.
        split; [apply checkGmail_last; [done|lia]|]. split; [lia|].
        split; [intros i Hi; lia|]. right. repeat split; [done|lia].
Qed.

Lemma waitForGmailLoad_aux env past :
  exists n r,
    play env waitForGmailLoad past = (past ++ polls n, r)
    /\ (n <= 29)%nat
    /\ (r = inr tt \/ (r = inl not_found /\ n = 29%nat)).
Proof.
  destruct (checkGmail_play env 30 30 0 past)
    as (n & r & Hp & Hn & _ & Hr); [lia|].
  exists n, r. repeat split; [done|lia|].
  destruct Hr as [[-> _] | (-> & _ & ->)]; [by left|by right].
Qed.

End Page.

(** X11: [waitForGmailLoad] checks the page every 500 ms, at most 30
    times, so it settles within 14500 ms; it resolves at the first check
    that finds the page, all the checks before having failed, and rejects
    with ['Gmail interface not found'] only after 30 checks that fail. *)
Theorem waitForGmailLoad_polls
    (env : environment page_request page_answer)
    (past : list page_request) :
  exists n r,
    play env waitForGmailLoad past = (past ++ polls n, r)
    /\ (n <= 29)%nat
    /\ checks (polls n) = S n
    /\ slept (polls n) = 500 * N.of_nat n
    /\ (forall i, (i < n)%nat -> env (past ++ rounds i) CheckGmail = false)
    /\ ((r = inr tt /\ env (past ++ rounds n) CheckGmail = true)
        \/ (r = inl (lit "Gmail interface not found")
            /\ env (past ++ rounds n) CheckGmail = false
            /\ n = 29%nat)).
Proof.
  destruct (checkGmail_play env 30 30 0 past)
    as (n & r & Hp & Hn & Hb & Hr); [lia|].
  exists n, r. unfold waitForGmailLoad.
  rewrite checks_polls, slept_polls. repeat split; try done.
Qed.

Section Retries.

Implicit Types (env : environment page_request page_answer).

Lemma backoff_S attempt fuel :
  backoff attempt (S (S fuel))
  = 1000 * (N.of_nat attempt + 1) + backoff (S attempt) (S fuel).
Proof. reflexivity. Qed.

Lemma retries_play env R fuel :
  forall attempt past,
    (attempt + fuel = R)%nat ->
    exists t r,
      play env (retries fuel R attempt) past = (past ++ t, r)
      /\ (checks t <= 30 * fuel)%nat
      /\ slept t <= 14500 * N.of_nat fuel + backoff attempt fuel
      /\ (r = inr tt
          \/ (r = inl not_found
              /\ (1 <= fuel)%nat
              /\ checks t = (30 * fuel)%nat
              /\ slept t = 14500 * N.of_nat fuel + backoff attempt fuel)).
Proof.
  induction fuel as [|fuel IH]; intros attempt past Hsum.
  - exists [], (inr tt). simpl. rewrite app_nil_r.
    repeat split; [done|lia|by left].
  - assert (Hlt : (attempt <? R)%nat = true) by (apply Nat.ltb_lt; lia).
    destruct (waitForGmailLoad_aux env past)
      as (n & r0 & Hp & Hn & Hres).
    cbn [retries]. rewrite Hlt, play_catch, Hp. cbn [fst snd].
    destruct Hres as [-> | (-> & ->)].
    + exists (polls n), (inr tt).
      rewrite checks_polls, slept_polls.
      repeat split; [lia|lia|by left].
    + destruct (decide (attempt = R - 1)%nat) as [Hlast|Hmore].
      * rewrite (proj2 (Nat.eqb_eq _ _) Hlast).
        assert (fuel = 0%nat) as -> by lia.
        exists (polls 29), (inl not_found).
        rewrite checks_polls, slept_polls. simpl.
        repeat split; [lia|lia|]. right. repeat split; lia.
      * rewrite (proj2 (Nat.eqb_neq _ _) Hmore). cbn [play].
        destruct fuel as [|fuel]; [lia|].
        destruct (IH (S attempt)
                    ((past ++ polls 29)
                       ++ [Sleep (1000 * (N.of_nat attempt + 1))]))
          as (t & r & Hp' & Hc & Hs & Hr); [lia|].
        exists (polls 29 ++ [Sleep (1000 * (N.of_nat attempt + 1))] ++ t), r.
        rewrite Hp', !checks_app, !slept_app, checks_polls, slept_polls,
          backoff_S.
        change (checks [Sleep _]) with 0%nat.
        change (slept [Sleep ?ms]) with (ms + 0).
        split; [by rewrite <- !app_assoc|].
        split; [lia|]. split; [lia|].
        destruct Hr as [-> | (-> & Hf & Hc' & Hs')]; [by left|].
        right. repeat split; lia.
Qed.

Lemma backoff_closed fuel :
  forall attempt,
    backoff attempt (S fuel)
    = 500 * N.of_nat fuel * (2 * N.of_nat attempt + N.of_nat fuel + 1).
Proof.
  induction fuel as [|fuel IH]; intros attempt; [reflexivity|].
  rewrite backoff_S, IH. nia.
Qed.

Lemma backoff_total maxRetries :
  backoff 0 maxRetries
  = 500 * N.of_nat maxRetries * (N.of_nat maxRetries - 1).
Proof.
  destruct maxRetries as [|fuel]; [reflexivity|].
  rewrite backoff_closed. nia.
Qed.

End Retries.

(** X12: [waitForGmailLoadWithRetries] is bounded: with [maxRetries]
    attempts it checks the page at most [30 * maxRetries] times and
    sleeps at most [14500 * maxRetries + 500 * maxRetries * (maxRetries - 1)]
    milliseconds (150 checks and 82.5 s for the 5 attempts of the
    constructor).  It throws only the error of [waitForGmailLoad], and
    only when every attempt has used all of its checks; the waits
    between attempts are then all made and none follows the last
    attempt. *)
Theorem waitForGmailLoadWithRetries_bounded
  (env : environment page_request page_answer) (maxRetries : nat) :
  exists t r,
    play env (waitForGmailLoadWithRetries maxRetries) [] = (t, r)
    /\ (checks t <= 30 * maxRetries)%nat
    /\ slept t <= 14500 * N.of_nat maxRetries
                  + 500 * N.of_nat maxRetries * (N.of_nat maxRetries - 1)
    /\ (r = inr tt
        \/ (r = inl (lit "Gmail interface not found")
            /\ (1 <= maxRetries)%nat
            /\ checks t = (30 * maxRetries)%nat
            /\ slept t = 14500 * N.of_nat maxRetries
                         + 500 * N.of_nat maxRetries
                           * (N.of_nat maxRetries - 1))).
Proof.
  destruct (retries_play env maxRetries maxRetries 0%nat [])
    as (t & r & Hp & Hc & Hs & Hr); [lia|].
  rewrite backoff_total in Hs, Hr.
  exists t, r. repeat split; try done.
Qed.


(** *** The summaries of a selection *)
Section Batch.

Implicit Types (env : environment batch_request batch_answer)
  (emailsData : list emailData) (t : list batch_request).

Lemma misses_app t1 t2 : misses (t1 ++ t2) = (misses t1 + misses t2)%nat.
Proof. unfold misses. by rewrite omap_app, length_app. Qed.

Lemma summarize_all_play env native emailsData :
  forall summaries past,
    exists t out,
      play env (summarize_all native emailsData summaries) past
      = (past ++ t, inr (summaries ++ out))
      /\ out.*1 = emailsData
      /\ omap beat t = mjoin (replicate (misses t) [None; Some 500])
      /\ (misses t <= length emailsData)%nat.
Proof.
  induction emailsData as [|email rest IH]; intros summaries past.
  - exists [], []. simpl. by rewrite !app_nil_r.
  - assert (Hgenerate : forall past',
      exists t out,
        play env
          (Do (Summarize (request_of email)) (fun r : outcome =>
             let summary :=
               match r with
               | Fulfilled summary => summary
               | Rejected error =>
                   lit "Error generating summary: " ++ message native error
               end in
             let summaries' := summaries ++ [(email, summary)] in
             Do (Render summaries') (fun _ =>
               Do (Delay 500) (fun _ =>
                 summarize_all native rest summaries')))) past'
        = (past' ++ t, inr (summaries ++ out))
        /\ out.*1 = email :: rest
        /\ omap beat t = mjoin (replicate (misses t) [None; Some 500])
        /\ (misses t <= S (length rest))%nat).
    { intros past'. cbn [play].
      set (summary := match env past' (Summarize (request_of email)) with
                      | Fulfilled summary => summary
                      | Rejected error => _
                      end).
      set (past'' := ((past' ++ _) ++ _) ++ _).
      destruct (IH (summaries ++ [(email, summary)]) past'')
        as (t & out & Hp & Ho & Hb & Hm).
      exists ([Summarize (request_of email);
               Render (summaries ++ [(email, summary)]); Delay 500] ++ t),
        ((email, summary) :: out).
      rewrite Hp. subst past''. split.
      { f_equal; [|f_equal]; rewrite <- !app_assoc; reflexivity. }
      split; [rewrite fmap_cons; by rewrite Ho|].
      rewrite omap_app, misses_app, Hb. split; [reflexivity|].
      change (misses [_; _; _]) with 1%nat. lia. }
    cbn [summarize_all length].
    destruct (truthy (data_id email)); [|apply Hgenerate].
    cbn [play].
    destruct (truthy (env past (LookUp (or_else (data_id email) []))))
      eqn:Hcached.
    2:{ destruct (Hgenerate (past ++ [LookUp (or_else (data_id email) [])]))
          as (t & out & Hp & Ho & Hb & Hm).
        exists (LookUp (or_else (data_id email) []) :: t), out.
        split; [etrans; [exact Hp|]; by rewrite <- app_assoc|].
        repeat split; done. }
    cbn [play].
    set (cached := or_else _ []).
    set (past' := (past ++ _) ++ _).
    destruct (IH (summaries ++ [(email, cached)]) past')
      as (t & out & Hp & Ho & Hb & Hm).
    exists ([LookUp (or_else (data_id email) []);
             Render (summaries ++ [(email, cached)])] ++ t),
      ((email, cached) :: out).
    rewrite Hp. subst past'. split.
    { f_equal; [|f_equal]; rewrite <- !app_assoc; reflexivity. }
    split; [rewrite fmap_cons; by rewrite Ho|].
    rewrite omap_app, misses_app, Hb. split; [reflexivity|].
    change (misses [_; _]) with 0%nat. lia.
Qed.

End Batch.

(** X13: [generateMultiEmailSummaries] never throws: whatever the cache
    holds and however the calls of the wrapper end, it returns a list
    with exactly one entry for each e-mail it was given, in the order
    given. *)
Theorem generateMultiEmailSummaries_one_entry_each
  (env : environment batch_request batch_answer)
  (native : error -> jsstring) (emailsData : list emailData) :
  exists t summaries,
    play env (generateMultiEmailSummaries native emailsData) []
    = (t, inr summaries)
    /\ summaries.*1 = emailsData.
Proof.
  destruct (summarize_all_play env native emailsData [] [])
    as (t & out & Hp & Ho & _).
  by exists t, out.
Qed.

(** X14: in [generateMultiEmailSummaries] every call of the wrapper is
    followed by a pause of 500 ms before the next one (and before the
    method returns), and there is no other pause: an e-mail served from
    the cache costs neither a call nor a pause.  There is at most one
    call for each e-mail. *)
Theorem generateMultiEmailSummaries_pace
  (env : environment batch_request batch_answer)
  (native : error -> jsstring) (emailsData : list emailData) :
  let t := (play env (generateMultiEmailSummaries native emailsData) []).1 in
  omap beat t = mjoin (replicate (misses t) [None; Some 500])
  /\ (misses t <= length emailsData)%nat.
Proof.
  destruct (summarize_all_play env native emailsData [] [])
    as (t & out & Hp & _ & Hb & Hm).
  unfold generateMultiEmailSummaries. rewrite Hp. by split.
Qed.

(** *** Time texts *)
Section TimeText.

Implicit Types (s : jsstring) (b : bool).

Lemma collapse_from_single_spaced s :
  forall b, single_spaced_from b (collapse_from b s) = true.
Proof.
  induction s as [|c r IH]; intros b; [done|]. simpl.
  destruct (is_space c) eqn:Hc.
  - destruct b; [apply IH|]. simpl. apply IH.
  - simpl. rewrite Hc. apply IH.
Qed.

Lemma single_spaced_weaken s b :
  single_spaced_from true s = true -> single_spaced_from b s = true.
Proof.
  destruct b; [done|]. destruct s as [|c r]; [done|]. simpl.
  destruct (is_space c); [|done]. by rewrite andb_false_r.
Qed.

Lemma single_spaced_head c r :
  single_spaced_from true (c :: r) = true -> is_space c = false.
Proof. simpl. destruct (is_space c); [by rewrite andb_false_r|done]. Qed.

Lemma trim_start_fixed s :
  (forall c r, s = c :: r -> is_space c = false) -> trim_start s = s.
Proof.
  destruct s as [|c r]; [done|]. intros H. simpl.
  by rewrite (H c r eq_refl).
Qed.

Lemma single_spaced_trim_start s :
  single_spaced_from false s = true ->
  single_spaced_from true (trim_start s) = true.
Proof.
  destruct s as [|c r]; [done|]. simpl.
  destruct (is_space c) eqn:Hc; [|by simpl; rewrite Hc].
  rewrite andb_true_r. intros [_ Hr]%andb_true_iff.
  rewrite trim_start_fixed; [done|].
  intros c' r' ->. by apply single_spaced_head in Hr.
Qed.

Lemma single_spaced_prefix s1 s2 :
  forall b, single_spaced_from b (s1 ++ s2) = true ->
            single_spaced_from b s1 = true.
Proof.
  induction s1 as [|c r IH]; intros b; [done|]. simpl.
  destruct (is_space c); [|apply IH].
  intros [-> ?%IH]%andb_true_iff. done.
Qed.

Lemma trim_prefix_of_trim_start s :
  exists q, trim_start s = trim s ++ q.
Proof.
  unfold trim.
  destruct (trim_start_suffix (rev (trim_start s))) as (q & Hq & _).
  exists (rev q).
  rewrite <- (rev_involutive (trim_start s)) at 1.
  rewrite Hq at 1. by rewrite rev_app_distr.
Qed.

Lemma single_spaced_trim s :
  single_spaced_from false s = true ->
  single_spaced_from true (trim s) = true.
Proof.
  intros Hs%single_spaced_trim_start.
  destruct (trim_prefix_of_trim_start s) as [q Hq].
  rewrite Hq in Hs. by apply single_spaced_prefix in Hs.
Qed.

Lemma single_spaced_only_spaces s :
  forall b c, single_spaced_from b s = true ->
              c ∈ s -> is_space c = true -> c = 32.
Proof.
  induction s as [|a r IH]; intros b c Hs Hin Hc.
  - by apply elem_of_nil in Hin.
  - simpl in Hs. apply elem_of_cons in Hin as [-> | Hin].
    + rewrite Hc in Hs.
      apply andb_true_iff in Hs as [[?%N.eqb_eq _]%andb_true_iff _]. done.
    + destruct (is_space a).
      * apply andb_true_iff in Hs as [_ Hs]. by apply (IH true).
      * by apply (IH false).
Qed.

Lemma single_spaced_no_double s :
  forall b i, single_spaced_from b s = true ->
              s !! i = Some 32 -> s !! S i <> Some 32.
Proof.
  induction s as [|a r IH]; intros b i Hs Hi; [done|].
  simpl in Hs. destruct i as [|i].
  - injection Hi as ->. simpl in Hs.
    apply andb_true_iff in Hs as [_ Hs].
    destruct r as [|c r']; [done|]. simpl.
    intros [= ->]. by apply single_spaced_head in Hs.
  - destruct (is_space a).
    + apply andb_true_iff in Hs as [_ Hs]. by apply (IH true).
    + by apply (IH false).
Qed.

Lemma collapse_from_fixed s :
  forall b, single_spaced_from b s = true -> collapse_from b s = s.
Proof.
  induction s as [|c r IH]; intros b Hs; [done|]. simpl in *.
  destruct (is_space c).
  - apply andb_true_iff in Hs as [[->%N.eqb_eq Hb%negb_true_iff]%andb_true_iff Hs].
    subst b. by rewrite IH.
  - by rewrite IH.
Qed.

Lemma replace_char_fixed from s :
  is_space from = true -> from <> 32 ->
  single_spaced_from true s = true ->
  replace_char from 32 s = s.
Proof.
  intros Hf Hne Hs. unfold replace_char.
  rewrite <- (map_id s) at 2. apply map_ext_in. intros c Hin.
  destruct (N.eqb_spec c from) as [->|]; [|done].
  apply (proj2 (list_elem_of_In _ _)) in Hin.
  by pose proof (single_spaced_only_spaces s true from Hs Hin Hf).
Qed.

Lemma trim_idempotent s : trim (trim s) = trim s.
Proof.
  set (u := trim s). unfold trim at 1.
  rewrite (trim_start_fixed u) by (intros c r; apply trim_first).
  rewrite trim_start_fixed; [apply rev_involutive|].
  intros c r Hr. apply (trim_last s c (rev r)).
  fold u. by rewrite <- (rev_involutive u), Hr.
Qed.

End TimeText.

(** X15: [cleanTimeText] returns a normal form: the only white space left
    in its result is the character U+0020, never twice in a row and
    neither first nor last; and cleaning a cleaned text changes
    nothing. *)
Theorem cleanTimeText_normal_form (text : opt) :
  let s := cleanTimeText text in
  (forall c, c ∈ s -> is_space c = true -> c = 32)
  /\ (forall i, s !! i = Some 32 -> s !! S i <> Some 32)
  /\ (forall c r, s = c :: r -> is_space c = false)
  /\ (forall c r, s = r ++ [c] -> is_space c = false)
  /\ cleanTimeText (Some s) = s.
Proof.
  intros s.
  assert (Hs : single_spaced_from true s = true).
  { apply single_spaced_trim, collapse_from_single_spaced. }
  split; [intros c; by apply (single_spaced_only_spaces s true)|].
  split; [intros i; by apply (single_spaced_no_double s true)|].
  split; [intros c r; apply trim_first|].
  split; [intros c r; apply trim_last|].
  unfold cleanTimeText at 1.
  rewrite or_else_some_nil.
  rewrite (replace_char_fixed 160 s), (replace_char_fixed 8239 s) by done.
  unfold collapse. rewrite collapse_from_fixed
    by by apply single_spaced_weaken.
  apply trim_idempotent.
Qed.

(** *** Installing the wrapper *)

(** X16: [installSummaryWrapper] takes effect once: after the first call
    on the object left by the constructor, [generateEmailSummary] is the
    wrapper and [_originalGenerateEmailSummary] is the method of the
    class, and further calls change nothing; so the method that the
    wrapper calls as the original is never the wrapper itself. *)
Theorem installSummaryWrapper_once (n : nat) (o : slots) :
  installSummaryWrapper (installSummaryWrapper o) = installSummaryWrapper o
  /\ Nat.iter (S n) installSummaryWrapper constructed
     = {| generateEmailSummary_slot := Wrapper;
          _originalGenerateEmailSummary := Some Plain;
          _summaryWrapperInstalled := true |}
  /\ _originalGenerateEmailSummary
       (Nat.iter n installSummaryWrapper constructed) <> Some Wrapper.
Proof.
  assert (Hiter : forall k,
    Nat.iter (S k) installSummaryWrapper constructed
    = {| generateEmailSummary_slot := Wrapper;
         _originalGenerateEmailSummary := Some Plain;
         _summaryWrapperInstalled := true |}).
  { induction k as [|k IH]; [reflexivity|].
    change (Nat.iter (S (S k)) installSummaryWrapper constructed)
      with (installSummaryWrapper
              (Nat.iter (S k) installSummaryWrapper constructed)).
    by rewrite IH. }
  split; [|split; [apply Hiter|]].
  - unfold installSummaryWrapper.
    by destruct (_summaryWrapperInstalled o) eqn:Ho; simpl; rewrite ?Ho.
  - destruct n as [|k]; [done|]. by rewrite Hiter.
Qed.

(** *** The memory cache and the request log *)

(** X17: a summary in the memory cache that is not empty is never
    replaced or removed: whatever happens afterwards, every lookup of its
    key gives the same summary. *)
Theorem cached_summary_is_never_replaced (s : state) (es : list event)
    (k v : jsstring) :
  reachable s ->
  v <> [] ->
  summaryCache s !! k = Some v ->
  summaryCache (run s es) !! k = Some v
  /\ getCachedSummary (summaryCache (run s es)) k = Some v.
Proof.
  intros Hr Hv Hk.
  assert (summaryCache (run s es) !! k = Some v) as Hk'
    by by apply cache_stable_run.
  split; [done|]. by apply getCachedSummary_some.
Qed.

Lemma cached_summary_is_never_replaced_witness :
  let s := run fresh (one_call 0 "k" (lit "Lunch at noon.") true) in
  let es := one_call 1 "k" (lit "Dinner at eight.") true in
  summaryCache (run s es) !! lit "k" = Some (lit "Lunch at noon.")
  /\ getCachedSummary (summaryCache (run s es)) (lit "k")
     = Some (lit "Lunch at noon.").
Proof.
  intros s es.
  refine (cached_summary_is_never_replaced s es (lit "k")
            (lit "Lunch at noon.") _ _ _).
  - apply reachable_run, reachable_init.
  - discriminate.
  - vm_compute. reflexivity.
Defined.

Section RequestLog.

Lemma NoDup_fmap_inv {A B} (f : A -> B) (l : list A) :
  NoDup (f <$> l) -> NoDup l.
Proof.
  induction l as [|a l IH]; [constructor|].
  rewrite fmap_cons, !NoDup_cons. intros [Hn Hl]. split; [|by apply IH].
  intros Hin. apply Hn. by apply list_elem_of_fmap_2.
Qed.

End RequestLog.

(** X18: the tasks send their backend requests in the order in which
    they were enqueued, one request each: the tasks that have sent a
    request, followed by the tasks still waiting in the queue, are the
    tasks enqueued, in order and without repetition; and a request sent
    by a task carries the prompt of that task's e-mail. *)
Theorem task_requests_follow_the_queue (s : state) :
  reachable s ->
  enqueued (history s) = sent_by_tasks s ++ summaryQueue s
  /\ NoDup (sent_by_tasks s ++ summaryQueue s)
  /\ (forall t r, (ByTask t, r) ∈ sent s ->
        r = summary_request (apiKey s) (task_email t)).
Proof.
  intros Hr. pose proof (reachable_invariant s Hr) as Hi.
  split; [by rewrite (inv_sent s Hi), <- (inv_fifo s Hi)|].
  split.
  { rewrite (inv_sent s Hi), <- (inv_fifo s Hi).
    apply (NoDup_fmap_inv task_owner), (inv_once s Hi). }
  clear Hi. induction Hr as [key d slot readable|s e s' Hr IH Hs].
  { intros t r Hin. by apply elem_of_nil in Hin. }
  assert (Hprocess : forall s0,
    (forall t r, (ByTask t, r) ∈ sent s0 ->
       r = summary_request (apiKey s0) (task_email t)) ->
    forall t r, (ByTask t, r) ∈ sent (processSummaryQueue s0) ->
       r = summary_request (apiKey (processSummaryQueue s0)) (task_email t)).
  { intros s0 H0 t r. unfold processSummaryQueue.
    destruct (isProcessingSummaryQueue s0); [apply H0|].
    destruct (summaryQueue s0) as [|t0 rest]; [apply H0|]. simpl.
    intros [Hin | Hin%list_elem_of_singleton]%elem_of_app;
      [by apply H0|]. by injection Hin as -> ->. }
  assert (Hfinish : forall t0 o,
    forall t r, (ByTask t, r) ∈ sent (finishTask t0 o s) ->
       r = summary_request (apiKey (finishTask t0 o s)) (task_email t)).
  { intros t0 o. unfold finishTask.
    match goal with |- context [if ?b then _ else _] => destruct b end;
      [apply Hprocess|]; apply IH. }
  assert (Hfall : forall c m s0,
    apiKey s0 = apiKey s -> sent s0 = sent s ->
    forall t r, (ByTask t, r) ∈ sent (fallBack c m s0) ->
       r = summary_request (apiKey (fallBack c m s0)) (task_email t)).
  { intros c m s0 Hk Hsent t r. simpl. rewrite Hk, Hsent.
    intros [Hin | Hin%list_elem_of_singleton]%elem_of_app;
      [by apply IH|done]. }
  destruct e as [c m|c|o|ok|ok|c|c o|d|ms]; simpl in Hs.
  - destruct (calls s !! c); [done|]. injection Hs as <-. apply IH.
  - destruct (calls s !! c) as [[m id| | | |]|]; try done.
    injection Hs as <-. unfold withId.
    destruct (getCachedSummary _ _); [apply IH|].
    destruct (inFlightSummaries s !! id); [apply IH|].
    simpl. unfold enqueueSummaryTask. apply Hprocess. apply IH.
  - destruct (current s) as [[t0| |]|]; try done.
    destruct (callGeminiAPI_settled o); injection Hs as <-;
      [apply IH|apply Hfinish].
  - destruct (current s) as [[|t0 v|]|]; try done.
    destruct ok; injection Hs as <-; [apply IH|apply Hfinish].
  - destruct (current s) as [[| |t0 v raw]|]; try done.
    injection Hs as <-. destruct ok; [|apply Hfinish].
    unfold finishTask.
    match goal with |- context [if ?b then _ else _] => destruct b end;
      [apply Hprocess|]; apply IH.
  - destruct (calls s !! c) as [[|m p|m id| |]|]; try done.
    + destruct (promises s !! p) as [[v|err]|]; try done;
        injection Hs as <-; [apply IH|by apply Hfall].
    + destruct (promises s !! c) as [[v|err]|]; try done;
        injection Hs as <-; [apply IH|by apply Hfall].
  - destruct (calls s !! c) as [[| | |m|]|]; try done.
    injection Hs as <-. apply IH.
  - injection Hs as <-. apply IH.
  - injection Hs as <-. apply IH.
Qed.

Lemma task_requests_follow_the_queue_witness :
  let s := run fresh two_messages in
  enqueued (history s) = sent_by_tasks s ++ summaryQueue s
  /\ NoDup (sent_by_tasks s ++ summaryQueue s)
  /\ (forall t r, (ByTask t, r) ∈ sent s ->
        r = summary_request (apiKey s) (task_email t)).
Proof.
  intros s. apply (task_requests_follow_the_queue s).
  apply reachable_run, reachable_init.
Defined.

(** *** One call, from the call to its return *)

(** X19: a call for a message that is neither cached nor in flight,
    made while the queue is idle, and whose backend call succeeds with
    text [v]: the call returns [v] after exactly one backend request,
    sent by its task with the prompt of its e-mail; [v] is then in the
    memory cache and in the storage under the key of the call, the
    in-flight map is as before and the queue is idle again. *)
Theorem one_call_end_to_end (s : state) (c : caller) (m : email)
    (o : fetch_outcome) (v : jsstring) :
  let k :=
    computeSummaryId (document s) (options_id m) (emailSubject m)
      (emailContent m) (Some (or_else (options_time m) [])) in
  reachable s ->
  calls s !! c = None ->
  current s = None ->
  getCachedSummary (summaryCache s) k = None ->
  inFlightSummaries s !! k = None ->
  callGeminiAPI_settled o = Fulfilled v ->
  let s' :=
    run s [Invoke c m; IdReady c; BackendDone o; StorageGetDone true;
           StorageSetDone true; Resume c] in
  calls s' !! c = Some (Settled (Fulfilled v))
  /\ sent s'
     = sent s ++ [(ByTask {| task_id := k; task_owner := c; task_email := m |},
                   summary_request (apiKey s) m)]
  /\ summaryCache s' = <[k := v]> (summaryCache s)
  /\ storage s' = Some (<[k := v]> (stored s))
  /\ inFlightSummaries s' = inFlightSummaries s
  /\ current s' = None
  /\ summaryQueue s' = []
  /\ isProcessingSummaryQueue s' = false.
Proof.
  intros k Hr Hcall Hcur Hmiss Hfly Ho.
  pose proof (reachable_invariant s Hr) as Hi.
  assert (Hq : summaryQueue s = []) by by apply (inv_idle s Hi).
  assert (Hflag : isProcessingSummaryQueue s = false).
  { destruct (isProcessingSummaryQueue s) eqn:Hf; [|done].
    apply (inv_flag s Hi) in Hf. rewrite Hcur in Hf. by destruct Hf. }
  set (t := {| task_id := k; task_owner := c; task_email := m |}).
  set (s2 := withId c m k (invoke c m s)).
  assert (E2 : s2 =
    set_call c (AwaitTask m k)
      (set_inFlightSummaries (<[k := c]> (inFlightSummaries s))
         (note (Started t)
            (send (ByTask t) (summary_request (apiKey s) m)
               (set_current (Some (AwaitBackend t))
                  (set_isProcessingSummaryQueue true
                     (set_summaryQueue []
                        (note (Enqueued t)
                           (set_summaryQueue [t] (invoke c m s)))))))))).
  { unfold s2, withId. simpl summaryCache. simpl inFlightSummaries.
    rewrite Hmiss, Hfly.
    unfold enqueueSummaryTask, processSummaryQueue. simpl.
    rewrite Hflag, Hq. reflexivity. }
  assert (Hcur2 : current s2 = Some (AwaitBackend t)) by by rewrite E2.
  assert (Hq2 : summaryQueue s2 = []) by by rewrite E2.
  assert (Hst2 : storage s2 = storage s) by by rewrite E2.
  assert (Hcalls2 : calls s2 !! c = Some (AwaitTask m k)).
  { rewrite E2. apply lookup_insert_eq. }
  assert (Hprom2 : promises s2 = promises s) by by rewrite E2.
  assert (Hfly2 : inFlightSummaries s2 = <[k := c]> (inFlightSummaries s))
    by by rewrite E2.
  assert (Hsent2 : sent s2
                   = sent s ++ [(ByTask t, summary_request (apiKey s) m)])
    by by rewrite E2.
  assert (Hcache2 : summaryCache s2 = summaryCache s) by by rewrite E2.
  set (s4 := set_current
               (Some (AwaitStorageSet t v (<[k := v]> (stored s))))
               (set_current (Some (AwaitStorageGet t v))
                  (set_summaryCache (<[k := v]> (summaryCache s)) s2))).
  set (s5 := finishTask t (Fulfilled v)
               (set_storage (Some (<[k := v]> (stored s))) s4)).
  destruct (finishTask_frame t (Fulfilled v)
              (set_storage (Some (<[k := v]> (stored s))) s4))
    as (Hcache5 & Hprom5 & Hcalls5 & Hfly5 & Hst5).
  destruct (finishTask_last
              (set_storage (Some (<[k := v]> (stored s))) s4) t
              (Fulfilled v) Hq2)
    as (Hcur5 & Hq5 & Hflag5 & Hsent5).
  fold s5 in Hcache5, Hprom5, Hcalls5, Hfly5, Hst5, Hcur5, Hq5, Hflag5,
    Hsent5.
  intros s'.
  assert (Hrun : s' =
    answer c (Fulfilled v)
      (set_inFlightSummaries (inFlightSummaries s) s5)).
  { subst s'.
    rewrite run_cons. simpl (step _ _). rewrite Hcall. simpl (default _ _).
    rewrite run_cons. simpl (step _ _). fold k.
    rewrite lookup_insert_eq. simpl (default _ _). fold s2.
    rewrite run_cons. simpl (step _ _). rewrite Hcur2, Ho.
    simpl (default _ _).
    rewrite run_cons. simpl (step _ _). rewrite Hst2, Hcache2.
    simpl (default _ _). fold (stored s).
    rewrite run_cons. simpl (step _ _). simpl (default _ _).
    fold s4. fold s5.
    rewrite run_cons. simpl (step _ _).
    rewrite Hcalls5. simpl (calls _). rewrite Hcalls2.
    rewrite Hprom5. simpl (promises _). rewrite lookup_insert_eq.
    simpl (default _ _). rewrite Hfly5. simpl (inFlightSummaries _).
    rewrite Hfly2, delete_insert_id by done. reflexivity. }
  rewrite Hrun. simpl.
  rewrite lookup_insert_eq, Hsent5, Hcache5, Hst5, Hcur5, Hq5, Hflag5.
  simpl. rewrite Hsent2. done.
Qed.

Lemma one_call_end_to_end_witness :
  calls (run fresh
           [Invoke 0 (mail "k"); IdReady 0;
            BackendDone (answer_with (lit "Lunch at noon."));
            StorageGetDone true; StorageSetDone true; Resume 0]) !! 0%nat
  = Some (Settled (Fulfilled (lit "Lunch at noon."))).
Proof.
  refine (proj1 (one_call_end_to_end fresh 0%nat (mail "k")
                   (answer_with (lit "Lunch at noon."))
                   (lit "Lunch at noon.") _ _ _ _ _ _)).
  - apply reachable_init.
  - reflexivity.
  - reflexivity.
  - vm_compute. reflexivity.
  - vm_compute. reflexivity.
  - vm_compute. reflexivity.
Defined.
